(** * thumbsup: the album model ([src/model/album.js])

    A shallow embedding of the [Album] constructor and of the recursive
    [Album.prototype.finalize], with the properties of the album tree that
    the specification states.

    Conventions of the embedding.
    - A JavaScript string is a [string] of ASCII characters: case mapping
      and the classes [\s], [\w] and [\d] are the ASCII ones, and a code
      above 127 is neither a letter nor a space.
    - A count is a [nat]; a date ([file.meta.date]) is a numeric time stamp,
      a [Z], or [undefined], hence an [option Z].
    - An object field that may hold [null] or [undefined] is an [option].
    - A statement that can throw a [TypeError] (a property read on [null])
      returns an [option]: [None] is the exception.
    - [finalize] mutates the album in place; here it returns the album after
      the call.  Children are not shared between parents, so the tree after
      the call is the tree of the returned values.
    - Node's [path.join] and [url.resolve] are parameters of [finalize]. *)

From Stdlib Require Import List Arith ZArith Lia Bool Ascii String.
From Stdlib Require Import Permutation Sorted DecimalString.
Import ListNotations.

Local Open Scope string_scope.
Local Open Scope list_scope.

(* ------------------------------------------------------------------ *)
(** ** Characters and strings *)

Module Chars.
Local Open Scope nat_scope.

Definition code (c : ascii) : nat := nat_of_ascii c.

Definition between (lo hi : nat) (c : ascii) : bool :=
  (lo <=? code c) && (code c <=? hi).

(** [[a-z]], [[A-Z]] and [\d]. *)
Definition is_lower (c : ascii) : bool := between 97 122 c.
Definition is_upper (c : ascii) : bool := between 65 90 c.
Definition is_digit (c : ascii) : bool := between 48 57 c.

Definition is_hyphen (c : ascii) : bool := code c =? 45.
Definition is_underscore (c : ascii) : bool := code c =? 95.

(** [\w] is [[A-Za-z0-9_]]; [\W] is its complement. *)
Definition is_word (c : ascii) : bool :=
  is_lower c || is_upper c || is_digit c || is_underscore c.

(** [\s], and what [trim] removes: tab, line feed, vertical tab, form feed,
    carriage return and space. *)
Definition is_space (c : ascii) : bool :=
  between 9 13 c || (code c =? 32).

Definition toLowerCase_char (c : ascii) : ascii :=
  if is_upper c then ascii_of_nat (code c + 32) else c.

Definition toUpperCase_char (c : ascii) : ascii :=
  if is_lower c then ascii_of_nat (code c - 32) else c.

End Chars.

(** Strings as lists of characters, for the functions that scan them. *)
Definition chars : string -> list ascii := list_ascii_of_string.
Definition of_chars : list ascii -> string := string_of_list_ascii.

Fixpoint sfilter (p : ascii -> bool) (s : string) : string :=
  match s with
  | EmptyString => EmptyString
  | String c r => if p c then String c (sfilter p r) else sfilter p r
  end.

Fixpoint sforallb (p : ascii -> bool) (s : string) : bool :=
  match s with
  | EmptyString => true
  | String c r => p c && sforallb p r
  end.

(** ['' + n] for a count [n]: its decimal notation. *)
Definition string_of_nat (n : nat) : string :=
  NilEmpty.string_of_uint (Nat.to_uint n).

(** [Array.prototype.join]. *)
Fixpoint join (sep : string) (l : list string) : string :=
  match l with
  | [] => ""
  | [x] => x
  | x :: r => x ++ sep ++ join sep r
  end.

(* ------------------------------------------------------------------ *)
(** ** [sanitise] and [titleize] *)

(** The class [[a-z0-9-_]] under the flag [i]: ASCII letters of both cases,
    digits, the hyphen and the underscore. *)
Definition basename_char (c : ascii) : bool :=
  Chars.is_lower c || Chars.is_upper c || Chars.is_digit c
  || Chars.is_hyphen c || Chars.is_underscore c.

(** [filename.replace(/[^a-z0-9-_]/ig, '')]: every character outside the
    class is removed. *)
Definition sanitise (filename : string) : string :=
  sfilter basename_char filename.

Module Titleize.
Import Chars.

(** [str.replace(re, ...)] with the flag [g], for a regular expression
    that matches no empty string.  [m s] is the match of [re] at the head
    of [s]: the text that replaces it and the input after it.  The scan
    goes left to right and resumes after each match. *)
Fixpoint replace_all_fuel (m : list ascii -> option (list ascii * list ascii))
         (fuel : nat) (s : list ascii) : list ascii :=
  match fuel with
  | O => s
  | S fuel' =>
      match s with
      | [] => []
      | c :: r =>
          match m s with
          | Some (out, rest) => out ++ replace_all_fuel m fuel' rest
          | None => c :: replace_all_fuel m fuel' r
          end
      end
  end.

Definition replace_all m (s : list ascii) : list ascii :=
  replace_all_fuel m (List.length s) s.

(** The longest prefix of [s] in the class [p], and what follows it. *)
Fixpoint span (p : ascii -> bool) (s : list ascii) : list ascii * list ascii :=
  match s with
  | [] => ([], [])
  | c :: r =>
      if p c then let (a, b) := span p r in (c :: a, b) else ([], s)
  end.

(** [/([A-Z\d]+)([A-Z][a-z])/] at the head of [s], replaced by ['$1 $2'].
    The group [$1] is greedy: it first takes the whole run of [[A-Z\d]]
    and gives characters back one at a time, down to one, until
    [[A-Z][a-z]] follows. *)
Fixpoint acronym_split (k : nat) (s : list ascii)
  : option (list ascii * list ascii) :=
  match k with
  | O => None
  | S k' =>
      match skipn k s with
      | u :: l :: rest =>
          if is_upper u && is_lower l
          then Some (firstn k s ++ " "%char :: [u; l], rest)
          else acronym_split k' s
      | _ => acronym_split k' s
      end
  end.

Definition match_acronym (s : list ascii) : option (list ascii * list ascii) :=
  acronym_split (List.length (fst (span (fun c => is_upper c || is_digit c) s))) s.

(** [/([a-z\d])([A-Z])/] at the head of [s], replaced by ['$1 $2']. *)
Definition match_camel (s : list ascii) : option (list ascii * list ascii) :=
  match s with
  | a :: b :: rest =>
      if (is_lower a || is_digit a) && is_upper b
      then Some ([a; " "%char; b], rest)
      else None
  | _ => None
  end.

(** [/_/] at the head of [s], replaced by [' ']. *)
Definition match_underscore (s : list ascii) : option (list ascii * list ascii) :=
  match s with
  | c :: rest => if is_underscore c then Some ([" "%char], rest) else None
  | [] => None
  end.

(** [w.replace(/^\W*[a-z]/, function (w) { return w.toUpperCase() })]:
    no flag [g], anchored at the start. *)
Definition capitalize (w : list ascii) : list ascii :=
  let (nonword, rest) := span (fun c => negb (is_word c)) w in
  match rest with
  | c :: rest' =>
      if is_lower c
      then map toUpperCase_char nonword ++ toUpperCase_char c :: rest'
      else w
  | [] => w
  end.

Fixpoint drop_spaces (s : list ascii) : list ascii :=
  match s with
  | c :: r => if is_space c then drop_spaces r else s
  | [] => []
  end.

(** [String.prototype.trim]. *)
Definition trim (s : list ascii) : list ascii :=
  rev (drop_spaces (rev (drop_spaces s))).

(** [s.split(/\s+/)]: [cur] is the piece being read, in reverse;
    [in_sep] tells that the previous character was a separator. *)
Fixpoint split_spaces (cur : list ascii) (in_sep : bool) (s : list ascii)
  : list (list ascii) :=
  match s with
  | [] => [rev cur]
  | c :: r =>
      if is_space c
      then if in_sep then split_spaces cur true r
           else rev cur :: split_spaces [] true r
      else split_spaces (c :: cur) false r
  end.

Fixpoint join_chars (l : list (list ascii)) : list ascii :=
  match l with
  | [] => []
  | [x] => x
  | x :: r => x ++ " "%char :: join_chars r
  end.

Definition titleize_chars (str : list ascii) : list ascii :=
  let s1 := replace_all match_acronym str in
  let s2 := replace_all match_camel s1 in
  let s3 := replace_all match_underscore s2 in
  let s4 := map toLowerCase_char s3 in
  let s5 := capitalize s4 in
  let s6 := trim s5 in
  join_chars (map capitalize (split_spaces [] false s6)).

End Titleize.

Definition titleize (str : string) : string :=
  of_chars (Titleize.titleize_chars (chars str)).

(** [itemCount(count, type)]. *)
Definition itemCount (count : nat) (type : string) : string :=
  if (count =? 0)%nat then ""
  else let plural := if (1 <? count)%nat then "s" else "" in
       string_of_nat count ++ " " ++ type ++ plural.

(* ------------------------------------------------------------------ *)
(** ** The data model *)

(** A media item, as the file scanner hands it over. *)
Module File.
Record t : Type := mk {
  type : string;            (* 'image', 'video', ... *)
  filename : string;
  date : option Z;          (* meta.date *)
  thumbnail : string        (* urls.thumbnail *)
}.
End File.

(** An entry of [previews]: a media item, the shared object
    [PREVIEW_MISSING] (recognised by identity, [!==]), or the [null] that
    [_.flatten(_.map(albums, 'previews'))] keeps for a child whose
    [previews] is still [null]. *)
Inductive Preview : Type :=
| Media (f : File.t)
| PREVIEW_MISSING
| Null.

Module Stats.
Record t : Type := mk {
  albums : nat;
  photos : nat;
  videos : nat;
  fromDate : option Z;
  toDate : option Z;
  total : nat
}.
End Stats.

#[warnings="-register-all"] Inductive Album : Type := mkAlbum {
  id : nat;
  title : string;
  basename : string;
  files : list File.t;
  albums : list Album;
  depth : nat;
  home : bool;
  path : option string;
  url : option string;
  stats : option Stats.t;
  summary : option string;
  previews : option (list Preview)
}.

(** The recognised fields of [options]; an absent field is [None] (a flag:
    [false]). *)
Record Options : Type := mkOptions {
  albumsOutputFolder : option string;
  index : option string;
  titleizeAlbumNames : bool;
  sortMediaBy : option string;
  sortMediaDirection : option string;
  sortAlbumsBy : option string;
  sortAlbumsDirection : option string;
  sortAlmbumsNumbersFirst : bool
}.

(** [{}]. *)
Definition no_options : Options :=
  mkOptions None None false None None None None false.

(** Every node of the tree under [a], [a] first. *)
Fixpoint nodes (a : Album) : list Album :=
  a :: flat_map nodes (albums a).

(* ------------------------------------------------------------------ *)
(** ** JavaScript values: truthiness and order *)

(** [x || y] tests whether [x] is truthy. *)
Class Truthy (A : Type) : Type := truthy : A -> bool.

#[export] Instance Truthy_nat : Truthy nat := fun n => negb (n =? 0)%nat.
#[export] Instance Truthy_Z : Truthy Z := fun z => negb (z =? 0)%Z.
#[export] Instance Truthy_string : Truthy string := fun s => negb (s =? "")%string.
(** [undefined] is falsy. *)
#[export] Instance Truthy_option {A} `{Truthy A} : Truthy (option A) :=
  fun o => match o with Some x => truthy x | None => false end.

(** [x || y]. *)
Definition or_else {A} `{Truthy A} (x : option A) (y : A) : A :=
  match x with
  | Some v => if truthy v then v else y
  | None => y
  end.

(** lodash's [compareAscending], as a [comparison]: [Gt] for 1, [Lt] for -1
    and [Eq] for 0. *)
Class JsOrd (K : Type) : Type := compareAscending : K -> K -> comparison.

(** Numbers, by [>] and [<]. *)
#[export] Instance JsOrd_Z : JsOrd Z := Z.compare.
(** Strings, by [>] and [<]: the order of the character codes. *)
#[export] Instance JsOrd_string : JsOrd string := String.compare.
(** Distinct objects: both become ['[object Object]'], neither [>] nor [<]
    holds. *)
#[export] Instance JsOrd_object : JsOrd unit := fun _ _ => Eq.
(** An [undefined] value goes after every defined one. *)
#[export] Instance JsOrd_option {K} `{JsOrd K} : JsOrd (option K) :=
  fun value other =>
    match value, other with
    | None, None => Eq
    | None, Some _ => Gt
    | Some _, None => Lt
    | Some v, Some o => compareAscending v o
    end.

(* ------------------------------------------------------------------ *)
(** ** The lodash functions the model uses *)

Module Lodash.

(** [_.compact]: the truthy elements. *)
Definition compact {A} `{Truthy A} (l : list A) : list A := filter truthy l.

(** [baseSum] with the identity: [undefined] elements are skipped, and the
    result is [undefined] when there is no other. *)
Fixpoint baseSum (result : option nat) (l : list (option nat)) : option nat :=
  match l with
  | [] => result
  | current :: r =>
      match current with
      | Some c =>
          baseSum (Some (match result with Some s => s + c | None => c end)) r
      | None => baseSum result r
      end
  end.

(** [_.sum]. *)
Definition sum (l : list (option nat)) : option nat :=
  match l with
  | [] => Some 0
  | _ => baseSum None l
  end.

(** [baseExtremum] with the identity: [before current computed] is the
    comparator, [baseLt] for [_.min] and [baseGt] for [_.max]. *)
Fixpoint baseExtremum (before : Z -> Z -> bool) (computed : option Z)
         (l : list (option Z)) : option Z :=
  match l with
  | [] => computed
  | current :: r =>
      match current, computed with
      | Some c, None => baseExtremum before (Some c) r
      | Some c, Some m =>
          baseExtremum before (Some (if before c m then c else m)) r
      | None, _ => baseExtremum before computed r
      end
  end.

Definition min (l : list (option Z)) : option Z := baseExtremum Z.ltb None l.
Definition max (l : list (option Z)) : option Z := baseExtremum Z.gtb None l.

(** [_.partition]. *)
Definition partition {A} (p : A -> bool) (l : list A) : list A * list A :=
  (filter p l, filter (fun x => negb (p x)) l).

Section OrderBy.
Context {A K : Type} `{JsOrd K}.

(** What [baseOrderBy] sorts: an element with its criterion and its
    position in the collection. *)
Record entry : Type := mkEntry { criteria : K; position : nat; value : A }.

(** The criteria are computed first, one per element, in order. *)
Fixpoint entries (iteratee : A -> option K) (i : nat) (l : list A)
  : option (list entry) :=
  match l with
  | [] => Some []
  | x :: r =>
      match iteratee x, entries iteratee (S i) r with
      | Some k, Some es => Some (mkEntry k i x :: es)
      | _, _ => None
      end
  end.

(** [compareMultiple(object, other, orders) < 0] for one criterion. *)
Definition precedes (order : option string) (object other : entry) : bool :=
  match compareAscending (criteria object) (criteria other) with
  | Eq => (position object <? position other)%nat
  | Lt => match order with
          | Some o => negb (o =? "desc")%string
          | None => true
          end
  | Gt => match order with
          | Some o => (o =? "desc")%string
          | None => false
          end
  end.

(** [Array.prototype.sort] with that comparator. *)
Fixpoint insert_entry (order : option string) (e : entry) (l : list entry)
  : list entry :=
  match l with
  | [] => [e]
  | y :: r =>
      if precedes order y e then y :: insert_entry order e r else e :: l
  end.

Fixpoint sort_entries (order : option string) (l : list entry) : list entry :=
  match l with
  | [] => []
  | e :: r => insert_entry order e (sort_entries order r)
  end.

(** [_.orderBy(collection, iteratee, order)]. *)
Definition orderBy (l : list A) (iteratee : A -> option K)
           (order : option string) : option (list A) :=
  match entries iteratee 0 l with
  | Some es => Some (map value (sort_entries order es))
  | None => None
  end.
End OrderBy.

End Lodash.

(* ------------------------------------------------------------------ *)
(** ** Exceptions *)

(** A computation that may throw: [None] is the exception. *)
Definition bind {A B} (x : option A) (k : A -> option B) : option B :=
  match x with
  | Some a => k a
  | None => None
  end.

Notation "x <- e ;; k" := (bind e (fun x => k))
  (at level 61, e at next level, right associativity).

Section MapM.
Context {A B : Type} (f : A -> option B).

(** A loop that calls [f] on every element, in order. *)
Fixpoint mapM (l : list A) : option (list B) :=
  match l with
  | [] => Some []
  | x :: r =>
      match f x, mapM r with
      | Some y, Some ys => Some (y :: ys)
      | _, _ => None
      end
  end.
End MapM.

(* ------------------------------------------------------------------ *)
(** ** Assignments to the fields of an album *)

Definition set_title (this : Album) (v : string) : Album :=
  mkAlbum (id this) v (basename this) (files this) (albums this)
          (depth this) (home this) (path this) (url this) (stats this)
          (summary this) (previews this).

Definition set_basename (this : Album) (v : string) : Album :=
  mkAlbum (id this) (title this) v (files this) (albums this)
          (depth this) (home this) (path this) (url this) (stats this)
          (summary this) (previews this).

Definition set_files (this : Album) (v : list File.t) : Album :=
  mkAlbum (id this) (title this) (basename this) v (albums this)
          (depth this) (home this) (path this) (url this) (stats this)
          (summary this) (previews this).

Definition set_albums (this : Album) (v : list Album) : Album :=
  mkAlbum (id this) (title this) (basename this) (files this) v
          (depth this) (home this) (path this) (url this) (stats this)
          (summary this) (previews this).

Definition set_depth (this : Album) (v : nat) : Album :=
  mkAlbum (id this) (title this) (basename this) (files this) (albums this)
          v (home this) (path this) (url this) (stats this)
          (summary this) (previews this).

Definition set_home (this : Album) (v : bool) : Album :=
  mkAlbum (id this) (title this) (basename this) (files this) (albums this)
          (depth this) v (path this) (url this) (stats this)
          (summary this) (previews this).

Definition set_path (this : Album) (v : string) : Album :=
  mkAlbum (id this) (title this) (basename this) (files this) (albums this)
          (depth this) (home this) (Some v) (url this) (stats this)
          (summary this) (previews this).

Definition set_url (this : Album) (v : string) : Album :=
  mkAlbum (id this) (title this) (basename this) (files this) (albums this)
          (depth this) (home this) (path this) (Some v) (stats this)
          (summary this) (previews this).

Definition set_stats (this : Album) (v : Stats.t) : Album :=
  mkAlbum (id this) (title this) (basename this) (files this) (albums this)
          (depth this) (home this) (path this) (url this) (Some v)
          (summary this) (previews this).

Definition set_summary (this : Album) (v : string) : Album :=
  mkAlbum (id this) (title this) (basename this) (files this) (albums this)
          (depth this) (home this) (path this) (url this) (stats this)
          (Some v) (previews this).

Definition set_previews (this : Album) (v : list Preview) : Album :=
  mkAlbum (id this) (title this) (basename this) (files this) (albums this)
          (depth this) (home this) (path this) (url this) (stats this)
          (summary this) (Some v).

(* ------------------------------------------------------------------ *)
(** ** The constructor *)

(** The argument of [Album(opts)]: a title, or an object whose fields
    [id], [title], [files] and [albums] may be absent. *)
Record AlbumOpts : Type := mkAlbumOpts {
  opts_id : option nat;
  opts_title : option string;
  opts_files : option (list File.t);
  opts_albums : option (list Album)
}.

Inductive AlbumArg : Type :=
| OfTitle (s : string)
| OfOpts (o : AlbumOpts).

(** [new Album(opts)].  The module variable [index] goes in and out. *)
Definition new_Album (opts : AlbumArg) (index : nat) : Album * nat :=
  let opts :=
    match opts with
    | OfTitle s => mkAlbumOpts None (Some s) None None
    | OfOpts o => o
    end in
  let '(id, index) :=
    match opts_id opts with
    | Some i => if truthy i then (i, index) else (S index, S index)
    | None => (S index, S index)
    end in
  let title := or_else (opts_title opts) ("Album " ++ string_of_nat id)%string in
  (mkAlbum id title (sanitise title)
           (match opts_files opts with Some l => l | None => [] end)
           (match opts_albums opts with Some l => l | None => [] end)
           0 false None None None None None,
   index).

(** [Album.resetIds()]. *)
Definition resetIds (index : nat) : nat := 0.

(* ------------------------------------------------------------------ *)
(** ** The methods *)

Definition PREVIEW_COUNT : nat := 10.

(** A function of a sort table, with the order of what it returns. *)
Inductive Iteratee (A : Type) : Type :=
| Iter {K : Type} `{JsOrd K} (f : A -> option K).
Arguments Iter {A K _} f.

(** [album.stats.fromDate] throws when [album.stats] is [null]. *)
Definition SORT_ALBUMS_BY (key : string) : option (Iteratee Album) :=
  if (key =? "title")%string then
    Some (Iter (fun album => Some (title album)))
  else if (key =? "start-date")%string then
    Some (Iter (fun album => st <- stats album ;; Some (Stats.fromDate st)))
  else if (key =? "end-date")%string then
    Some (Iter (fun album => st <- stats album ;; Some (Stats.toDate st)))
  else None.

Definition SORT_MEDIA_BY (key : string) : option (Iteratee File.t) :=
  if (key =? "filename")%string then
    Some (Iter (fun file => Some (File.filename file)))
  else if (key =? "date")%string then
    Some (Iter (fun file => Some (File.date file)))
  else None.

(** [TABLE[options.key]]: [undefined] when the option is absent or names no
    entry of the table. *)
Definition lookup {A} (table : string -> option (Iteratee A))
           (key : option string) : option (Iteratee A) :=
  match key with
  | Some k => table k
  | None => None
  end.

(** [_.orderBy] with an iteratee that may be [undefined]: lodash then
    orders by the elements themselves, which are objects. *)
Definition orderBy_with {A} (l : list A) (iteratee : option (Iteratee A))
           (order : option string) : option (list A) :=
  match iteratee with
  | Some (Iter f) => Lodash.orderBy l f order
  | None => Lodash.orderBy l (fun _ => Some tt) order
  end.

(** [a.title.match(/^[\d-]+$/)]: a title of one or more digits and
    hyphens. *)
Definition numeric_title (a : Album) : bool :=
  negb (title a =? "")%string
  && sforallb (fun c => Chars.is_digit c || Chars.is_hyphen c) (title a).

Definition calculateStats (this : Album) : Album :=
  let nestedPhotos := map (fun a => option_map Stats.photos (stats a)) (albums this) in
  let nestedVideos := map (fun a => option_map Stats.videos (stats a)) (albums this) in
  let nestedFromDates := map (fun a => st <- stats a ;; Stats.fromDate st) (albums this) in
  let nestedToDates := map (fun a => st <- stats a ;; Stats.toDate st) (albums this) in
  let currentPhotos :=
    List.length (filter (fun f => (File.type f =? "image")%string) (files this)) in
  let currentVideos :=
    List.length (filter (fun f => (File.type f =? "video")%string) (files this)) in
  let currentFromDate := map File.date (files this) in
  let currentToDate := map File.date (files this) in
  let photos :=
    or_else (Lodash.sum (Lodash.compact (nestedPhotos ++ [Some currentPhotos]))) 0 in
  let videos :=
    or_else (Lodash.sum (Lodash.compact (nestedVideos ++ [Some currentVideos]))) 0 in
  set_stats this
    (Stats.mk (List.length (albums this)) photos videos
       (Lodash.min (Lodash.compact (nestedFromDates ++ currentFromDate)))
       (Lodash.max (Lodash.compact (nestedToDates ++ currentToDate)))
       (photos + videos)).

Definition calculateSummary (this : Album) : option Album :=
  st <- stats this ;;
  let items := [ itemCount (Stats.albums st) "album";
                 itemCount (Stats.photos st) "photo";
                 itemCount (Stats.videos st) "video" ] in
  Some (set_summary this (join ", " (Lodash.compact items))).

Definition sort (options : Options) (this : Album) : option Album :=
  fs <- orderBy_with (files this) (lookup SORT_MEDIA_BY (sortMediaBy options))
                     (sortMediaDirection options) ;;
  let this := set_files this fs in
  als <- orderBy_with (albums this) (lookup SORT_ALBUMS_BY (sortAlbumsBy options))
                      (sortAlbumsDirection options) ;;
  let this := set_albums this als in
  if sortAlmbumsNumbersFirst options then
    let parts := Lodash.partition numeric_title (albums this) in
    Some (set_albums this (fst parts ++ snd parts))
  else Some this.

Definition is_missing (file : Preview) : bool :=
  match file with
  | PREVIEW_MISSING => true
  | _ => false
  end.

Definition pickPreviews (this : Album) : Album :=
  let nestedPicks :=
    filter (fun file => negb (is_missing file))
           (flat_map (fun a => match previews a with
                               | Some l => l
                               | None => [Null]
                               end) (albums this)) in
  let potentialPicks := map Media (files this) ++ nestedPicks in
  let previews := firstn PREVIEW_COUNT potentialPicks in
  let missing := PREVIEW_COUNT - List.length previews in
  set_previews this (previews ++ repeat PREVIEW_MISSING missing).

Section Finalize.

(** Node's [path.join] and [url.resolve]. *)
Variable path_join : string -> string -> string.
Variable url_resolve : string -> string -> string.

(** The first part of [finalize], up to the loop over the nested albums:
    the title, then the path, the URL and the depth. *)
Definition locate (options : Options) (parent : option Album) (this : Album)
  : Album :=
  let albumsOutputFolder := or_else (albumsOutputFolder options) "." in
  let this :=
    if titleizeAlbumNames options then set_title this (titleize (title this))
    else this in
  match parent with
  | None =>
      let this := set_path this (or_else (index options) "index.html") in
      let this := set_url this (or_else (index options) "index.html") in
      set_depth this 0
  | Some parent =>
      let this :=
        if (0 <? depth parent)%nat
        then set_basename this (basename parent ++ "-" ++ basename this)%string
        else this in
      let this :=
        set_path this (path_join albumsOutputFolder (basename this ++ ".html")%string) in
      let this :=
        set_url this (url_resolve (albumsOutputFolder ++ "/")%string
                                  (basename this ++ ".html")%string) in
      set_depth this (depth parent + 1)
  end.

(** The last part of [finalize], after the loop. *)
Definition complete (options : Options) (this : Album) : option Album :=
  let this := set_home this (depth this =? 0)%nat in
  let this := calculateStats this in
  this <- calculateSummary this ;;
  this <- sort options this ;;
  Some (pickPreviews this).

(** [this.finalize(options, parent)], on the defaulted [options].  The loop
    runs over [this.albums], which the first part leaves as it was, and
    leaves the finalized albums in their place. *)
Fixpoint finalize_with (options : Options) (parent : option Album)
         (a : Album) : option Album :=
  let this := locate options parent a in
  nested <- mapM (finalize_with options (Some this)) (albums a) ;;
  complete options (set_albums this nested).

(** [Album.prototype.finalize]; [options] may be absent. *)
Definition finalize (options : option Options) (parent : option Album)
           (this : Album) : option Album :=
  finalize_with (match options with Some o => o | None => no_options end)
                parent this.

End Finalize.

(* ------------------------------------------------------------------ *)
(** ** The vocabulary of the properties *)

(** The text that [calculateSummary] builds from the statistics. *)
Definition summary_of (st : Stats.t) : string :=
  join ", " (Lodash.compact [ itemCount (Stats.albums st) "album";
                              itemCount (Stats.photos st) "photo";
                              itemCount (Stats.videos st) "video" ]).

(** The statistics that [calculateStats] stores. *)
Definition stats_of (this : Album) : Stats.t :=
  match stats (calculateStats this) with
  | Some st => st
  | None => Stats.mk 0 0 0 None None 0
  end.

(** The number of files of a type. *)
Definition count_type (type : string) (fs : list File.t) : nat :=
  List.length (filter (fun f => (File.type f =? type)%string) fs).

(** A count in the statistics of a nested album. *)
Definition stat (field : Stats.t -> nat) (a : Album) : nat :=
  match stats a with
  | Some st => field st
  | None => 0
  end.

Definition defined (x : option nat) : nat :=
  match x with
  | Some n => n
  | None => 0
  end.

(** The statistics of a finalized album add up. *)
Definition additive (n : Album) : Prop :=
  exists st,
    stats n = Some st /\
    Forall (fun c => stats c <> None) (albums n) /\
    Stats.photos st
    = list_sum (map (stat Stats.photos) (albums n)) + count_type "image" (files n) /\
    Stats.videos st
    = list_sum (map (stat Stats.videos) (albums n)) + count_type "video" (files n) /\
    Stats.total st = Stats.photos st + Stats.videos st.

(** The date range of the statistics: both ends are defined or neither
    is, and defined ends are in order (and truthy: [_.compact] dropped the
    others). *)
Definition dates_ok (st : Stats.t) : Prop :=
  (Stats.fromDate st = None <-> Stats.toDate st = None) /\
  forall f t,
    Stats.fromDate st = Some f -> Stats.toDate st = Some t ->
    f <> 0%Z /\ t <> 0%Z /\ (f <= t)%Z.

Definition has_date_range (n : Album) : Prop :=
  exists st, stats n = Some st /\ dates_ok st.

(** [_.flatten(_.map(albums, 'previews'))]. *)
Definition nested_previews (cs : list Album) : list Preview :=
  flat_map (fun a => match previews a with
                     | Some l => l
                     | None => [Null]
                     end) cs.

(** The previews of the nested albums that are not the placeholder. *)
Definition inherited (cs : list Album) : list Preview :=
  filter (fun file => negb (is_missing file)) (nested_previews cs).

Definition full_previews (n : Album) : Prop :=
  exists l, previews n = Some l /\ List.length l = PREVIEW_COUNT.

Definition only_placeholders (n : Album) : Prop :=
  previews n = Some (repeat PREVIEW_MISSING PREVIEW_COUNT).

(** The previews of an album: media items, then placeholders up to
    [PREVIEW_COUNT]; the media items are the first of the album's own
    files followed by what the nested albums hand over. *)
Definition previews_shape (n : Album) : Prop :=
  exists reals : list File.t,
    previews n
    = Some (map Media reals
            ++ repeat PREVIEW_MISSING (PREVIEW_COUNT - List.length reals)) /\
    map Media reals
    = firstn PREVIEW_COUNT (map Media (files n) ++ inherited (albums n)).

(** The fragment for a count, as the specification words it: none when the
    count is 0, else the count, a space and the word, with a final "s"
    when the count is greater than 1. *)
Definition fragment (count : nat) (word : string) : option string :=
  match count with
  | 0 => None
  | 1 => Some (string_of_nat count ++ " " ++ word)%string
  | _ => Some (string_of_nat count ++ " " ++ word ++ "s")%string
  end.

Definition present (l : list (option string)) : list string :=
  flat_map (fun x => match x with Some s => [s] | None => [] end) l.

(** The summary, as the specification words it. *)
Definition summary_text (st : Stats.t) : string :=
  join ", " (present [ fragment (Stats.albums st) "album";
                       fragment (Stats.photos st) "photo";
                       fragment (Stats.videos st) "video" ]).

Definition summarised (n : Album) : Prop :=
  exists st, stats n = Some st /\ summary n = Some (summary_text st).

(** [options.index], when [options] and the field are there. *)
Definition index_option (options : option Options) : option string :=
  match options with
  | Some o => index o
  | None => None
  end.

(** The file name of the root as the specification words it:
    [options.index], or ['index.html'] when [options.index] is absent. *)
Definition index_or_default (options : option Options) : string :=
  match index_option options with
  | Some i => i
  | None => "index.html"
  end.

(** The file name of the root as the code computes it: ['index.html'] also
    when [options.index] is the empty string. *)
Definition index_file (options : option Options) : string :=
  match index_option options with
  | Some i => if (i =? "")%string then "index.html" else i
  | None => "index.html"
  end.

(** Root identity, with the file name as the specification words it. *)
Definition root_identity_as_stated
           (path_join url_resolve : string -> string -> string)
           (options : option Options) (root : Album) : Prop :=
  forall root',
    finalize path_join url_resolve options None root = Some root' ->
    depth root' = 0 /\ home root' = true /\
    path root' = Some (index_or_default options) /\
    url root' = Some (index_or_default options).

(** The flag [options.titleizeAlbumNames]. *)
Definition titleizes (options : option Options) : bool :=
  match options with
  | Some o => titleizeAlbumNames o
  | None => false
  end.

(** Basename chaining, with the titles read after [finalize]. *)
Definition basename_chaining_as_stated
           (path_join url_resolve : string -> string -> string)
           (options : option Options) (root : Album) : Prop :=
  forall root' A' B',
    finalize path_join url_resolve options None root = Some root' ->
    In A' (albums root') -> In B' (albums A') ->
    basename B' = (basename A' ++ "-" ++ sanitise (title B'))%string /\
    basename A' = sanitise (title A').

(** ASCII letters, digits, the hyphen and the underscore, listed. *)
Definition allowed_char (c : ascii) : bool :=
  existsb (Ascii.eqb c)
    (chars "abcdefghijklmnopqrstuvwxyzABCDEFGHIJKLMNOPQRSTUVWXYZ0123456789-_").

(** A string that matches [^[0-9-]+$] from end to end: one or more
    characters, each a digit or a hyphen. *)
Definition digits_and_hyphens (s : string) : bool :=
  negb (s =? "")%string
  && sforallb (fun c => existsb (Ascii.eqb c) (chars "0123456789-")) s.

(** A string of allowed characters only. *)
Definition safe (s : string) : Prop := sforallb allowed_char s = true.

(* ------------------------------------------------------------------ *)
(** ** A sample gallery *)

Module Sample.

(** [path.join] and [url.resolve] on a plain folder name: nothing to
    normalise, no scheme and no host. *)
Definition path_join (folder file : string) : string :=
  if (folder =? ".")%string then file else (folder ++ "/" ++ file)%string.

Definition url_resolve (base file : string) : string :=
  if (base =? "./")%string then file else (base ++ file)%string.

Definition photo (name : string) (date : Z) : File.t :=
  File.mk "image" name (Some date) ("thumbs/" ++ name).

Definition video (name : string) (date : Z) : File.t :=
  File.mk "video" name (Some date) ("thumbs/" ++ name).

Definition album_of (title : string) (fs : list File.t) (cs : list Album)
  : AlbumArg :=
  OfOpts (mkAlbumOpts None (Some title) (Some fs) (Some cs)).

(** Home > Vacation2023 > beach_day, and Home > 2024. *)
Definition beach : Album :=
  fst (new_Album (album_of "beach_day" [photo "b2.jpg" 1690000300;
                                        photo "b1.jpg" 1690000200] []) 0).

Definition vacation : Album :=
  fst (new_Album (album_of "Vacation2023" [photo "v1.jpg" 1690000000;
                                           video "v2.mp4" 1690000100]
                           [beach]) 1).

Definition year2024 : Album :=
  fst (new_Album (album_of "2024" [photo "n1.jpg" 1710000000] []) 2).

Definition root : Album :=
  fst (new_Album (album_of "Home" [] [vacation; year2024]) 3).

Definition options : Options :=
  mkOptions (Some "albums") None false (Some "date") (Some "asc")
            (Some "title") (Some "asc") true.

Definition finalized : Album :=
  Eval vm_compute in
    match finalize path_join url_resolve (Some options) None root with
    | Some a => a
    | None => root
    end.

(** [{ index: '' }]. *)
Definition empty_index : Options :=
  mkOptions None (Some "") false None None None None false.

(** [{ titleizeAlbumNames: true }]. *)
Definition titleized : Options :=
  mkOptions None None true None None None None false.

(** An album with no file and no nested album. *)
Definition empty : Album := fst (new_Album (OfTitle "Empty") 0).

(** An album that holds the albums "Zebra", "2023" and "Apple". *)
Definition shelf : Album :=
  fst (new_Album (album_of "Shelf" []
                           [fst (new_Album (OfTitle "Zebra") 0);
                            fst (new_Album (OfTitle "2023") 1);
                            fst (new_Album (OfTitle "Apple") 2)]) 3).

Definition shelf_sorted : Album :=
  Eval vm_compute in
    match sort options shelf with
    | Some a => a
    | None => shelf
    end.

End Sample.

(* ------------------------------------------------------------------ *)
(** ** The vocabulary of the further properties *)

(** [options || {}]. *)
Definition defaulted (options : option Options) : Options :=
  match options with
  | Some o => o
  | None => no_options
  end.

(** [options.albumsOutputFolder || '.']. *)
Definition output_folder (options : option Options) : string :=
  or_else (albumsOutputFolder (defaulted options)) ".".

(** Every field that [finalize] computes is set. *)
Definition computed (n : Album) : Prop :=
  path n <> None /\ url n <> None /\ stats n <> None /\
  summary n <> None /\ previews n <> None.

(** An album and its nested albums, as [finalize] leaves them: depths,
    [home], and where the nested albums are written. *)
Definition well_placed (path_join url_resolve : string -> string -> string)
           (options : option Options) (n : Album) : Prop :=
  home n = (depth n =? 0)%nat /\
  forall c, In c (albums n) ->
    depth c = depth n + 1 /\
    home c = false /\
    path c = Some (path_join (output_folder options)
                             (basename c ++ ".html")%string) /\
    url c = Some (url_resolve (output_folder options ++ "/")%string
                              (basename c ++ ".html")%string) /\
    (0 < depth n -> exists b, basename c = (basename n ++ "-" ++ b)%string).

(** The files of a type in the whole tree under an album. *)
Definition subtree_count (type : string) (n : Album) : nat :=
  list_sum (map (fun m => count_type type (files m)) (nodes n)).

(** The files of the whole tree under an album. *)
Definition subtree_files (n : Album) : list File.t :=
  flat_map files (nodes n).

(** The counts of a finalized album are those of the whole tree under it. *)
Definition counts_subtree (n : Album) : Prop :=
  exists st,
    stats n = Some st /\
    Stats.albums st = List.length (albums n) /\
    Stats.photos st = subtree_count "image" n /\
    Stats.videos st = subtree_count "video" n.

(** The date range of a finalized album and the dates of the files of the
    tree under it: each end is the truthy date of a file, and every truthy
    date of a file is between the ends. *)
Definition covers_dates (n : Album) : Prop :=
  exists st,
    stats n = Some st /\
    (forall f, Stats.fromDate st = Some f ->
       f <> 0%Z /\
       exists file, In file (subtree_files n) /\ File.date file = Some f) /\
    (forall t, Stats.toDate st = Some t ->
       t <> 0%Z /\
       exists file, In file (subtree_files n) /\ File.date file = Some t) /\
    (forall file d,
       In file (subtree_files n) -> File.date file = Some d -> d <> 0%Z ->
       exists f t,
         Stats.fromDate st = Some f /\ Stats.toDate st = Some t /\
         (f <= d <= t)%Z).

(** [order == 'desc']. *)
Definition descending (order : option string) : bool :=
  match order with
  | Some o => (o =? "desc")%string
  | None => false
  end.

(** Two criteria in the order that [_.orderBy] was asked for: not
    descending when the order is not ['desc'], not ascending when it is. *)
Definition in_order {K} `{JsOrd K} (order : option string) (k1 k2 : K) : Prop :=
  if descending order then compareAscending k1 k2 <> Lt
  else compareAscending k1 k2 <> Gt.

(** The order of two dates, an undefined date last. *)
Definition date_le (x y : option Z) : Prop :=
  match x, y with
  | Some a, Some b => (a <= b)%Z
  | _, None => True
  | None, Some _ => False
  end.

(** [album.stats.fromDate] and [album.stats.toDate]. *)
Definition start_date (a : Album) : option Z :=
  st <- stats a ;; Stats.fromDate st.

Definition end_date (a : Album) : option Z :=
  st <- stats a ;; Stats.toDate st.

(** The files of an album in the order of their names. *)
Definition files_by_filename (options : Options) (n : Album) : Prop :=
  if descending (sortMediaDirection options)
  then Sorted (fun f g => (File.filename g <=? File.filename f)%string = true)
              (files n)
  else Sorted (fun f g => (File.filename f <=? File.filename g)%string = true)
              (files n).

(** The files of an album in the order of their dates. *)
Definition files_by_date (options : Options) (n : Album) : Prop :=
  if descending (sortMediaDirection options)
  then Sorted (fun f g => date_le (File.date g) (File.date f)) (files n)
  else Sorted (fun f g => date_le (File.date f) (File.date g)) (files n).

(** The albums of an album in the order of their titles. *)
Definition albums_by_title (options : Options) (n : Album) : Prop :=
  if descending (sortAlbumsDirection options)
  then Sorted (fun a b => (title b <=? title a)%string = true) (albums n)
  else Sorted (fun a b => (title a <=? title b)%string = true) (albums n).

(** The albums of an album in the order of a date of their statistics. *)
Definition albums_by_date (key : Album -> option Z) (options : Options)
           (n : Album) : Prop :=
  stats n <> None /\
  if descending (sortAlbumsDirection options)
  then Sorted (fun a b => date_le (key b) (key a)) (albums n)
  else Sorted (fun a b => date_le (key a) (key b)) (albums n).

(** The names of the properties that the sort tables, object literals,
    inherit from [Object.prototype].  [TABLE[name]] is then no
    [undefined] but a method of every object, and [_.orderBy] would call
    it on the elements; the model covers the other keys. *)
Definition inherited_names : list string :=
  ["constructor"; "hasOwnProperty"; "isPrototypeOf"; "propertyIsEnumerable";
   "toLocaleString"; "toString"; "valueOf"; "__proto__";
   "__defineGetter__"; "__defineSetter__";
   "__lookupGetter__"; "__lookupSetter__"].

(** A sort key that is absent or is no inherited name. *)
Definition plain_key (key : option string) : Prop :=
  forall k, key = Some k -> ~ In k inherited_names.

(** A value of [sortMediaBy] that names no entry of [SORT_MEDIA_BY]. *)
Definition unknown_media_key (key : option string) : Prop :=
  forall k, key = Some k -> k <> "filename" /\ k <> "date".

(** A value of [sortAlbumsBy] that names no entry of [SORT_ALBUMS_BY]. *)
Definition unknown_albums_key (key : option string) : Prop :=
  forall k, key = Some k ->
            k <> "title" /\ k <> "start-date" /\ k <> "end-date".

(** The previews of a finalized album are placeholders or files of the
    tree under it. *)
Definition previews_from_subtree (n : Album) : Prop :=
  exists l,
    previews n = Some l /\
    forall p, In p l ->
      p = PREVIEW_MISSING \/
      exists f, p = Media f /\ In f (subtree_files n).

(** The previews of a finalized album are as many files as the tree under
    it has, up to [PREVIEW_COUNT], then placeholders. *)
Definition previews_filled (n : Album) : Prop :=
  exists reals : list File.t,
    previews n
    = Some (map Media reals
            ++ repeat PREVIEW_MISSING (PREVIEW_COUNT - List.length reals)) /\
    List.length reals
    = Nat.min PREVIEW_COUNT (List.length (subtree_files n)).

(** The previews of a finalized album start with its own files. *)
Definition own_files_first (n : Album) : Prop :=
  exists l,
    previews n = Some l /\
    firstn (Nat.min PREVIEW_COUNT (List.length (files n))) l
    = map Media (firstn PREVIEW_COUNT (files n)).

(** [opts.id] and [opts.title] of the argument of the constructor; a title
    given alone comes with no [id]. *)
Definition arg_id (opts : AlbumArg) : option nat :=
  match opts with
  | OfTitle _ => None
  | OfOpts o => opts_id o
  end.

Definition arg_title (opts : AlbumArg) : option string :=
  match opts with
  | OfTitle s => Some s
  | OfOpts o => opts_title o
  end.

(** Calls of the constructor one after the other, on the module variable
    [index]. *)
Fixpoint new_Albums (l : list AlbumArg) (index : nat) : list Album * nat :=
  match l with
  | [] => ([], index)
  | opts :: r =>
      let (a, index) := new_Album opts index in
      let (rest, index) := new_Albums r index in
      (a :: rest, index)
  end.


(* ------------------------------------------------------------------ *)
(** ** More of the sample gallery *)

Module Gallery.

(** [{ sortMediaBy: 'filename', sortMediaDirection: 'desc',
       sortAlbumsBy: 'title', sortAlbumsDirection: 'desc' }]. *)
Definition by_name_desc : Options :=
  mkOptions None None false (Some "filename") (Some "desc")
            (Some "title") (Some "desc") false.

(** [{ sortMediaBy: 'date', sortAlbumsBy: 'start-date' }]. *)
Definition by_date : Options :=
  mkOptions None None false (Some "date") None (Some "start-date") None false.

(** [{ titleizeAlbumNames: true, sortMediaBy: 'size', sortAlbumsBy: 'size' }]:
    no entry of the sort tables is named. *)
Definition by_size : Options :=
  mkOptions None None true (Some "size") None (Some "size") None false.

Definition finalized_with (options : Options) (root : Album) : Album :=
  match finalize Sample.path_join Sample.url_resolve (Some options) None root with
  | Some a => a
  | None => root
  end.

Definition named_desc : Album :=
  Eval vm_compute in finalized_with by_name_desc Sample.root.

Definition dated : Album :=
  Eval vm_compute in finalized_with by_date Sample.root.

Definition sized : Album :=
  Eval vm_compute in finalized_with by_size Sample.root.

(** [finalize] once more on what [finalize] returned. *)
Definition twice : Album :=
  Eval vm_compute in finalized_with Sample.options Sample.finalized.



End Gallery.

(* ------------------------------------------------------------------ *)
(** * Properties *)

Example sanitise_ex : sanitise "My Album: 2023_a-b!" = "MyAlbum2023_a-b".
Proof. reflexivity. Qed.
Example titleize_ex1 : titleize "myHolidayPhotos_2023" = "My Holiday Photos 2023".
Proof. reflexivity. Qed.
Example titleize_ex2 : titleize "NYCTrip  in_the USA" = "Nyc Trip In The Usa".
Proof. reflexivity. Qed.
Example itemCount_ex : itemCount 12 "photo" = "12 photos".
Proof. reflexivity. Qed.

Lemma nodes_unfold (a : Album) : nodes a = a :: flat_map nodes (albums a).
Proof. destruct a; reflexivity. Qed.

(** Induction on the tree of albums. *)
Lemma Album_tree_ind (P : Album -> Prop) :
  (forall a, Forall P (albums a) -> P a) -> forall a, P a.
Proof.
  intros step.
  fix IH 1.
  intros a. apply step.
  destruct a as [i t b fs cs d h p u st sm pv]. simpl.
  induction cs as [|c cs IHcs]; constructor.
  - apply IH.
  - exact IHcs.
Qed.

(** ** The scan of [replace] ends *)

(** The fuel of [replace_all], the length of the string, is enough when
    every match leaves less input than it was given: more fuel gives the
    same result. *)
Lemma replace_all_fuel_enough
      (m : list ascii -> option (list ascii * list ascii)) :
  (forall s out rest, m s = Some (out, rest) ->
                      List.length rest < List.length s) ->
  forall fuel s,
    List.length s <= fuel ->
    Titleize.replace_all_fuel m fuel s = Titleize.replace_all m s.
Proof.
  intros Hm.
  assert (H : forall f1 f2 s,
             List.length s <= f1 -> List.length s <= f2 ->
             Titleize.replace_all_fuel m f1 s = Titleize.replace_all_fuel m f2 s).
  { induction f1 as [|f1 IH]; intros f2 s H1 H2.
    - destruct s; [|simpl in H1; lia]. destruct f2; reflexivity.
    - destruct f2 as [|f2]; [destruct s; [reflexivity|simpl in H2; lia]|].
      simpl. destruct s as [|c r]; [reflexivity|].
      destruct (m (c :: r)) as [[out rest]|] eqn:E.
      + apply Hm in E. f_equal. apply IH; simpl in *; lia.
      + f_equal. apply IH; simpl in *; lia. }
  intros fuel s Hs. apply H; [exact Hs|lia].
Qed.

Lemma match_camel_shorter s out rest :
  Titleize.match_camel s = Some (out, rest) -> List.length rest < List.length s.
Proof.
  unfold Titleize.match_camel. destruct s as [|a [|b r]]; try discriminate.
  destruct (_ && _); [|discriminate]. intros [= _ <-]. simpl. lia.
Qed.

Lemma match_underscore_shorter s out rest :
  Titleize.match_underscore s = Some (out, rest) ->
  List.length rest < List.length s.
Proof.
  unfold Titleize.match_underscore. destruct s as [|c r]; [discriminate|].
  destruct (Chars.is_underscore c); [|discriminate].
  intros [= _ <-]. simpl. lia.
Qed.

Lemma match_acronym_shorter s out rest :
  Titleize.match_acronym s = Some (out, rest) ->
  List.length rest < List.length s.
Proof.
  unfold Titleize.match_acronym.
  generalize (List.length (fst (Titleize.span
                                  (fun c => Chars.is_upper c || Chars.is_digit c) s))).
  intros k. induction k as [|k IH]; simpl; [discriminate|].
  destruct s as [|c s']; [simpl; exact IH|].
  destruct (skipn k s') as [|u [|l r]] eqn:E; try exact IH.
  destruct (_ && _); [|exact IH].
  intros [= _ <-].
  assert (Hl : List.length (skipn k s') = List.length s' - k) by apply length_skipn.
  rewrite E in Hl. simpl in *. lia.
Qed.

(** ** Lists and loops *)

Lemma bind_Some {A B} (x : option A) (k : A -> option B) (b : B) :
  bind x k = Some b -> exists a, x = Some a /\ k a = Some b.
Proof.
  destruct x as [a|]; simpl; intros E; [exists a; auto | discriminate].
Qed.

Lemma mapM_Forall2 {A B} (f : A -> option B) (l : list A) (l' : list B) :
  mapM f l = Some l' -> Forall2 (fun x y => f x = Some y) l l'.
Proof.
  revert l'. induction l as [|x r IH]; simpl; intros l' E.
  - injection E as <-. constructor.
  - destruct (f x) as [y|] eqn:Ex; [|discriminate].
    destruct (mapM f r) as [ys|]; [|discriminate].
    injection E as <-. constructor; auto.
Qed.

Lemma mapM_total {A B} (f : A -> option B) (l : list A) :
  Forall (fun x => exists y, f x = Some y) l -> exists l', mapM f l = Some l'.
Proof.
  induction 1 as [|x r [y Ey] _ [ys Eys]]; simpl.
  - eauto.
  - rewrite Ey, Eys. eauto.
Qed.

Lemma Forall2_In_r {A B} (R : A -> B -> Prop) l l' y :
  Forall2 R l l' -> In y l' -> exists x, In x l /\ R x y.
Proof.
  induction 1 as [|a b l l' Hab _ IH]; simpl; [tauto|].
  intros [<-|Hin].
  - exists a; auto.
  - destruct (IH Hin) as (x & Hx & Hr). exists x; auto.
Qed.

Lemma Forall2_In_l {A B} (R : A -> B -> Prop) l l' x :
  Forall2 R l l' -> In x l -> exists y, In y l' /\ R x y.
Proof.
  induction 1 as [|a b l l' Hab _ IH]; simpl; [tauto|].
  intros [<-|Hin].
  - exists b; auto.
  - destruct (IH Hin) as (y & Hy & Hr). exists y; auto.
Qed.

Lemma partition_Permutation {A} (p : A -> bool) (l : list A) :
  Permutation l (fst (Lodash.partition p l) ++ snd (Lodash.partition p l)).
Proof.
  unfold Lodash.partition; simpl.
  induction l as [|x r IH]; simpl; [constructor|].
  destruct (p x); simpl.
  - constructor; exact IH.
  - apply Permutation_cons_app; exact IH.
Qed.

Lemma list_sum_Permutation (l l' : list nat) :
  Permutation l l' -> list_sum l = list_sum l'.
Proof.
  induction 1; simpl; lia.
Qed.

Lemma filter_Permutation {A} (p : A -> bool) (l l' : list A) :
  Permutation l l' -> Permutation (filter p l) (filter p l').
Proof.
  induction 1 as [|x l l' _ IH|x y l|l l' l'' _ IH1 _ IH2]; simpl.
  - constructor.
  - destruct (p x); [constructor|]; exact IH.
  - destruct (p x), (p y); try reflexivity. constructor.
  - etransitivity; eassumption.
Qed.

(** ** [_.orderBy] returns a permutation of the collection *)

Section OrderByFacts.
Context {A K : Type} `{JsOrd K}.

Lemma entries_value (iteratee : A -> option K) (l : list A) :
  forall i es, Lodash.entries iteratee i l = Some es ->
               map Lodash.value es = l.
Proof.
  induction l as [|x r IH]; simpl; intros i es E.
  - injection E as <-. reflexivity.
  - destruct (iteratee x) as [k|]; [|discriminate].
    destruct (Lodash.entries iteratee (S i) r) as [es'|] eqn:Er; [|discriminate].
    injection E as <-. simpl. f_equal. eauto.
Qed.

Lemma entries_total (iteratee : A -> option K) (l : list A) :
  Forall (fun x => iteratee x <> None) l ->
  forall i, exists es, Lodash.entries iteratee i l = Some es.
Proof.
  induction 1 as [|x r Hx _ IH]; simpl; intros i.
  - eauto.
  - destruct (iteratee x) as [k|]; [|congruence].
    destruct (IH (S i)) as [es ->]. eauto.
Qed.

Lemma insert_entry_Permutation order (e : Lodash.entry (A:=A) (K:=K)) l :
  Permutation (e :: l) (Lodash.insert_entry order e l).
Proof.
  induction l as [|y r IH]; simpl; [reflexivity|].
  destruct (Lodash.precedes order y e); [|reflexivity].
  etransitivity; [apply perm_swap|]. constructor; exact IH.
Qed.

Lemma sort_entries_Permutation order (l : list (Lodash.entry (A:=A) (K:=K))) :
  Permutation l (Lodash.sort_entries order l).
Proof.
  induction l as [|e r IH]; simpl; [constructor|].
  etransitivity; [|apply insert_entry_Permutation].
  constructor; exact IH.
Qed.

Lemma orderBy_Permutation (l l' : list A) iteratee order :
  Lodash.orderBy l iteratee order = Some l' -> Permutation l l'.
Proof.
  unfold Lodash.orderBy.
  destruct (Lodash.entries iteratee 0 l) as [es|] eqn:E; [|discriminate].
  intros [= <-]. rewrite <- (entries_value _ _ _ _ E).
  apply Permutation_map, sort_entries_Permutation.
Qed.

Lemma orderBy_total (l : list A) iteratee order :
  Forall (fun x => iteratee x <> None) l ->
  exists l', Lodash.orderBy l iteratee order = Some l'.
Proof.
  intros Hl. unfold Lodash.orderBy.
  destruct (entries_total iteratee l Hl 0) as [es ->]. eauto.
Qed.
End OrderByFacts.

Lemma orderBy_with_Permutation {A} (l l' : list A) iteratee order :
  orderBy_with l iteratee order = Some l' -> Permutation l l'.
Proof.
  unfold orderBy_with. destruct iteratee as [[K ord f]|];
    apply orderBy_Permutation.
Qed.

Lemma SORT_MEDIA_BY_total key fs order :
  exists fs', orderBy_with fs (lookup SORT_MEDIA_BY key) order = Some fs'.
Proof.
  unfold orderBy_with, lookup, SORT_MEDIA_BY.
  destruct key as [k|].
  - destruct (k =? "filename")%string;
      [|destruct (k =? "date")%string];
      apply orderBy_total, Forall_forall; intros; discriminate.
  - apply orderBy_total, Forall_forall; intros; discriminate.
Qed.

Lemma SORT_ALBUMS_BY_total key cs order :
  Forall (fun c => stats c <> None) cs ->
  exists cs', orderBy_with cs (lookup SORT_ALBUMS_BY key) order = Some cs'.
Proof.
  intros Hcs. unfold orderBy_with, lookup, SORT_ALBUMS_BY.
  assert (Hst : forall g : Stats.t -> option Z,
             Forall (fun c => (st <- stats c ;; Some (g st)) <> None) cs).
  { intros g. eapply Forall_impl; [|exact Hcs].
    intros c Hc. simpl in Hc.
    destruct (stats c); simpl; [discriminate | now elim Hc]. }
  destruct key as [k|].
  - destruct (k =? "title")%string;
      [|destruct (k =? "start-date")%string;
        [|destruct (k =? "end-date")%string]];
      apply orderBy_total; auto; apply Forall_forall; intros; discriminate.
  - apply orderBy_total, Forall_forall; intros; discriminate.
Qed.

(** ** What [sort] and the last part of [finalize] do to an album *)

Lemma sort_inv options this this' :
  sort options this = Some this' ->
  exists fs als,
    orderBy_with (files this) (lookup SORT_MEDIA_BY (sortMediaBy options))
                 (sortMediaDirection options) = Some fs /\
    orderBy_with (albums this) (lookup SORT_ALBUMS_BY (sortAlbumsBy options))
                 (sortAlbumsDirection options) = Some als /\
    this' = set_albums (set_files this fs)
              (if sortAlmbumsNumbersFirst options
               then filter numeric_title als
                    ++ filter (fun a => negb (numeric_title a)) als
               else als).
Proof.
  unfold sort. intros E.
  apply bind_Some in E as (fs & Efs & E).
  apply bind_Some in E as (als & Eals & E).
  exists fs, als. split; [exact Efs|]. split; [exact Eals|].
  destruct (sortAlmbumsNumbersFirst options); injection E as <-; reflexivity.
Qed.

Lemma sort_total options this :
  Forall (fun c => stats c <> None) (albums this) ->
  exists this', sort options this = Some this'.
Proof.
  intros Hcs. unfold sort.
  destruct (SORT_MEDIA_BY_total (sortMediaBy options) (files this)
              (sortMediaDirection options)) as [fs ->].
  simpl.
  destruct (SORT_ALBUMS_BY_total (sortAlbumsBy options) (albums this)
              (sortAlbumsDirection options) Hcs) as [als ->].
  simpl. destruct (sortAlmbumsNumbersFirst options); eauto.
Qed.

Lemma calculateStats_stats this :
  stats (calculateStats this) = Some (stats_of this).
Proof. reflexivity. Qed.

Section FinalizeFacts.

Variable path_join : string -> string -> string.
Variable url_resolve : string -> string -> string.

Let finalize_with := finalize_with path_join url_resolve.
Let locate := locate path_join url_resolve.

Lemma complete_inv options this a' :
  complete options this = Some a' ->
  exists fs als,
    orderBy_with (files this) (lookup SORT_MEDIA_BY (sortMediaBy options))
                 (sortMediaDirection options) = Some fs /\
    orderBy_with (albums this) (lookup SORT_ALBUMS_BY (sortAlbumsBy options))
                 (sortAlbumsDirection options) = Some als /\
    a' = pickPreviews
           (set_albums
              (set_files
                 (set_summary
                    (calculateStats (set_home this (depth this =? 0)%nat))
                    (summary_of (stats_of this)))
                 fs)
              (if sortAlmbumsNumbersFirst options
               then filter numeric_title als
                    ++ filter (fun a => negb (numeric_title a)) als
               else als)).
Proof.
  unfold complete. intros E.
  apply bind_Some in E as (this1 & E1 & E).
  apply bind_Some in E as (this2 & E2 & E).
  injection E as <-.
  unfold calculateSummary in E1. rewrite calculateStats_stats in E1.
  simpl in E1. injection E1 as <-.
  apply sort_inv in E2 as (fs & als & Efs & Eals & ->).
  exists fs, als. auto.
Qed.

Lemma complete_total options this :
  Forall (fun c => stats c <> None) (albums this) ->
  exists a', complete options this = Some a'.
Proof.
  intros Hcs. unfold complete, calculateSummary.
  rewrite calculateStats_stats. simpl.
  match goal with
  | |- context [sort options ?t] =>
      destruct (sort_total options t Hcs) as [this' ->]
  end.
  simpl. eauto.
Qed.

(** The fields of the album that the last part of [finalize] returns. *)
Lemma complete_fields options this a' :
  complete options this = Some a' ->
  id a' = id this /\ title a' = title this /\ basename a' = basename this /\
  depth a' = depth this /\ home a' = (depth this =? 0)%nat /\
  path a' = path this /\ url a' = url this /\
  stats a' = Some (stats_of this) /\
  summary a' = Some (summary_of (stats_of this)) /\
  Permutation (files this) (files a') /\
  Permutation (albums this) (albums a') /\
  previews a' = previews (pickPreviews a').
Proof.
  intros E. apply complete_inv in E as (fs & als & Efs & Eals & ->).
  apply orderBy_with_Permutation in Efs, Eals.
  repeat split; try reflexivity; simpl; try assumption.
  destruct (sortAlmbumsNumbersFirst options); [|assumption].
  etransitivity; [exact Eals|].
  exact (partition_Permutation numeric_title als).
Qed.

Lemma finalize_with_unfold options parent a :
  finalize_with options parent a =
  (nested <- mapM (finalize_with options (Some (locate options parent a)))
                  (albums a) ;;
   complete options (set_albums (locate options parent a) nested)).
Proof. destruct a; reflexivity. Qed.

(** Induction on the calls of [finalize]: a property of a call follows
    from the same property of the calls on the nested albums. *)
Lemma finalize_call_ind (options : Options)
      (R : option Album -> Album -> Album -> Prop) :
  (forall parent a nested a',
      Forall2 (fun c c' =>
                 finalize_with options (Some (locate options parent a)) c
                 = Some c'
                 /\ R (Some (locate options parent a)) c c')
              (albums a) nested ->
      complete options (set_albums (locate options parent a) nested)
      = Some a' ->
      R parent a a') ->
  forall parent a a',
    finalize_with options parent a = Some a' -> R parent a a'.
Proof.
  intros step parent a. revert parent.
  induction a as [a IH] using Album_tree_ind.
  intros parent a' E. rewrite finalize_with_unfold in E.
  apply bind_Some in E as (nested & En & E).
  apply (step parent a nested a'); [|exact E].
  apply mapM_Forall2 in En.
  clear E. induction En as [|c c' cs cs' Ec _ IHn]; constructor.
  - split; [exact Ec|]. inversion IH; subst. auto.
  - apply IHn. inversion IH; subst. assumption.
Qed.

(** A call of [finalize] returns an album that has statistics. *)
Lemma finalize_with_stats options parent a a' :
  finalize_with options parent a = Some a' -> stats a' <> None.
Proof.
  rewrite finalize_with_unfold. intros E.
  apply bind_Some in E as (nested & _ & E).
  apply complete_fields in E. intuition congruence.
Qed.

(** [finalize] throws no exception. *)
Lemma finalize_with_total options :
  forall a parent, exists a', finalize_with options parent a = Some a'.
Proof.
  induction a as [a IH] using Album_tree_ind. intros parent.
  rewrite finalize_with_unfold.
  destruct (mapM_total (finalize_with options (Some (locate options parent a)))
              (albums a)) as [nested En].
  { eapply Forall_impl; [|exact IH]. intros c Hc. apply Hc. }
  rewrite En. simpl.
  apply complete_total. simpl.
  apply mapM_Forall2 in En.
  apply Forall_forall. intros c' Hc'.
  destruct (Forall2_In_r _ _ _ _ En Hc') as (c & _ & Ec).
  eapply finalize_with_stats; exact Ec.
Qed.

Lemma finalize_total options parent a :
  exists a', finalize path_join url_resolve options parent a = Some a'.
Proof. apply finalize_with_total. Qed.

End FinalizeFacts.

(** ** Properties of every node of a finalized tree *)

Section EveryNode.

Variable path_join : string -> string -> string.
Variable url_resolve : string -> string -> string.

(** A property that the last part of [finalize] establishes for an album,
    given the property for the nested albums, holds for every node of
    the tree that [finalize] returns. *)
Lemma finalize_with_nodes (options : Options) (Q : Album -> Prop) :
  (forall this a',
      Forall Q (albums this) -> complete options this = Some a' -> Q a') ->
  forall parent a a',
    finalize_with path_join url_resolve options parent a = Some a' ->
    Forall Q (nodes a').
Proof.
  intros local.
  apply (finalize_call_ind path_join url_resolve options
           (fun _ _ a' => Forall Q (nodes a'))).
  intros parent a nested a' Hn E.
  assert (Hnested : Forall (fun c' => Forall Q (nodes c')) nested).
  { apply Forall_forall. intros c' Hc'.
    destruct (Forall2_In_r _ _ _ _ Hn Hc') as (c & _ & _ & Hc). exact Hc. }
  destruct (complete_fields _ _ _ E) as (_ & _ & _ & _ & _ & _ & _ & _ & _ & _ & Hp & _).
  simpl in Hp. rewrite nodes_unfold. constructor.
  - eapply local; [|exact E].
    simpl. eapply Forall_impl; [|exact Hnested].
    intros c' Hc'. cbv beta in Hc'.
    rewrite nodes_unfold in Hc'. inversion Hc'; assumption.
  - apply Forall_flat_map.
    eapply Permutation_Forall; [exact Hp|exact Hnested].
Qed.

Lemma finalize_nodes (options : option Options) (Q : Album -> Prop) :
  (forall o this a',
      Forall Q (albums this) -> complete o this = Some a' -> Q a') ->
  forall parent a a',
    finalize path_join url_resolve options parent a = Some a' ->
    forall n, In n (nodes a') -> Q n.
Proof.
  intros local parent a a' E.
  apply Forall_forall.
  eapply finalize_with_nodes; [apply local|exact E].
Qed.

End EveryNode.

(** ** Statistics *)

Lemma baseSum_compact (l : list (option nat)) :
  forall result,
    defined (Lodash.baseSum result (Lodash.compact l))
    = defined result + list_sum (map defined l).
Proof.
  unfold Lodash.compact.
  induction l as [|x r IH]; intros result; simpl; [lia|].
  destruct x as [c|]; simpl.
  - unfold truthy at 1, Truthy_option, truthy, Truthy_nat.
    destruct (Nat.eqb_spec c 0) as [->|Hc]; simpl.
    + apply IH.
    + rewrite IH. destruct result; simpl; lia.
  - apply IH.
Qed.

Lemma sum_compact (l : list (option nat)) :
  or_else (Lodash.sum (Lodash.compact l)) 0 = list_sum (map defined l).
Proof.
  assert (E : forall x : option nat, or_else x 0 = defined x).
  { intros [v|]; simpl; [|reflexivity].
    unfold truthy, Truthy_nat. destruct (Nat.eqb_spec v 0); simpl; congruence. }
  rewrite E. pose proof (baseSum_compact l None) as B. simpl in B.
  rewrite <- B. unfold Lodash.sum.
  destruct (Lodash.compact l); reflexivity.
Qed.

Lemma sum_nested (field : Stats.t -> nat) (current : nat) (cs : list Album) :
  or_else (Lodash.sum (Lodash.compact
             (map (fun a => option_map field (stats a)) cs ++ [Some current]))) 0
  = list_sum (map (stat field) cs) + current.
Proof.
  rewrite sum_compact, map_app, list_sum_app, map_map. simpl.
  f_equal; [|lia]. f_equal. apply map_ext.
  intros a. unfold stat. destruct (stats a); reflexivity.
Qed.

Lemma stats_of_counts (this : Album) :
  Stats.albums (stats_of this) = List.length (albums this) /\
  Stats.photos (stats_of this)
  = list_sum (map (stat Stats.photos) (albums this))
    + count_type "image" (files this) /\
  Stats.videos (stats_of this)
  = list_sum (map (stat Stats.videos) (albums this))
    + count_type "video" (files this) /\
  Stats.total (stats_of this)
  = Stats.photos (stats_of this) + Stats.videos (stats_of this).
Proof.
  unfold stats_of, calculateStats. simpl.
  rewrite !sum_nested. auto.
Qed.

Lemma count_type_Permutation type (fs fs' : list File.t) :
  Permutation fs fs' -> count_type type fs = count_type type fs'.
Proof.
  intros P. unfold count_type.
  apply Permutation_length, filter_Permutation, P.
Qed.

Lemma stat_sum_Permutation field (cs cs' : list Album) :
  Permutation cs cs' ->
  list_sum (map (stat field) cs) = list_sum (map (stat field) cs').
Proof.
  intros P. apply list_sum_Permutation, Permutation_map, P.
Qed.

Lemma complete_additive options this a' :
  Forall additive (albums this) ->
  complete options this = Some a' -> additive a'.
Proof.
  intros Hcs E.
  destruct (complete_fields _ _ _ E)
    as (_ & _ & _ & _ & _ & _ & _ & Est & _ & Pf & Pa & _).
  destruct (stats_of_counts this) as (_ & Hp & Hv & Ht).
  exists (stats_of this). split; [exact Est|]. split.
  - eapply Permutation_Forall; [exact Pa|].
    eapply Forall_impl; [|exact Hcs].
    intros c (st & -> & _). discriminate.
  - rewrite <- (count_type_Permutation _ _ _ Pf).
    rewrite <- (count_type_Permutation _ _ _ Pf).
    rewrite <- !(stat_sum_Permutation _ _ _ Pa). auto.
Qed.

(** C1. Stats additivity: in the tree that [finalize] returns, the
    [stats.photos] of every album is the sum of the [stats.photos] of its
    direct child albums, which all have statistics, plus the number of its
    own files of type ['image']; [stats.videos] is the same sum for the
    type ['video']; and [stats.total] is [stats.photos + stats.videos]. *)
Theorem stats_additivity (path_join url_resolve : string -> string -> string)
        (options : option Options) (parent : option Album) (root root' : Album) :
  finalize path_join url_resolve options parent root = Some root' ->
  forall n, In n (nodes root') ->
  exists st,
    stats n = Some st /\
    Forall (fun c => stats c <> None) (albums n) /\
    Stats.photos st
    = list_sum (map (stat Stats.photos) (albums n)) + count_type "image" (files n) /\
    Stats.videos st
    = list_sum (map (stat Stats.videos) (albums n)) + count_type "video" (files n) /\
    Stats.total st = Stats.photos st + Stats.videos st.
Proof.
  intros E n Hn.
  exact (finalize_nodes path_join url_resolve options additive
           complete_additive parent root root' E n Hn).
Qed.

(** ** Dates *)

Section Extremum.
Variable before : Z -> Z -> bool.
Variable le : Z -> Z -> Prop.
Hypothesis le_refl : forall x, le x x.
Hypothesis le_trans : forall x y z, le x y -> le y z -> le x z.
Hypothesis before_le :
  forall c m, le (if before c m then c else m) c
              /\ le (if before c m then c else m) m.

Lemma baseExtremum_In (l : list (option Z)) :
  forall computed m,
    Lodash.baseExtremum before computed l = Some m ->
    computed = Some m \/ In (Some m) l.
Proof.
  induction l as [|x r IH]; simpl; intros computed m E; [auto|].
  destruct x as [c|]; [destruct computed as [k|]|].
  - destruct (IH _ _ E) as [[= <-]|Hin]; [|auto].
    destruct (before c k); auto.
  - destruct (IH _ _ E) as [[= <-]|Hin]; auto.
  - destruct (IH _ _ E) as [->|Hin]; auto.
Qed.

Lemma baseExtremum_defined (l : list (option Z)) :
  forall computed,
    Lodash.baseExtremum before computed l = None ->
    computed = None /\ forall x, ~ In (Some x) l.
Proof.
  induction l as [|x r IH]; simpl; intros computed E; [auto|].
  destruct x as [c|]; [destruct computed as [k|]|].
  - apply IH in E as [[=] _].
  - apply IH in E as [[=] _].
  - apply IH in E as [-> Hr]. split; [reflexivity|].
    intros x [[=]|Hx]. exact (Hr x Hx).
Qed.

Lemma baseExtremum_bound (l : list (option Z)) :
  forall computed m,
    Lodash.baseExtremum before computed l = Some m ->
    (forall k, computed = Some k -> le m k)
    /\ forall x, In (Some x) l -> le m x.
Proof.
  induction l as [|x r IH]; simpl; intros computed m E.
  - split; [|tauto]. intros k ->. injection E as ->. apply le_refl.
  - destruct x as [c|]; [destruct computed as [k|]|].
    + destruct (IH _ _ E) as [Hk Hr].
      specialize (Hk _ eq_refl). destruct (before_le c k) as [Hc Hm].
      split.
      * intros k' [= <-]. eapply le_trans; eassumption.
      * intros x [[= <-]|Hx]; [eapply le_trans; eassumption|auto].
    + destruct (IH _ _ E) as [Hk Hr]. split; [discriminate|].
      intros x [[= <-]|Hx]; auto.
    + destruct (IH _ _ E) as [Hk Hr]. split; [exact Hk|].
      intros x [[=]|Hx]; auto.
Qed.
End Extremum.

Lemma min_spec (l : list (option Z)) (m : Z) :
  Lodash.min l = Some m ->
  In (Some m) l /\ forall x, In (Some x) l -> (m <= x)%Z.
Proof.
  unfold Lodash.min. intros E. split.
  - destruct (baseExtremum_In _ _ _ _ E) as [[=]|Hin]; exact Hin.
  - apply (baseExtremum_bound Z.ltb Z.le Z.le_refl Z.le_trans) in E.
    + apply E.
    + intros c k. destruct (Z.ltb_spec c k); lia.
Qed.

Lemma max_spec (l : list (option Z)) (m : Z) :
  Lodash.max l = Some m ->
  In (Some m) l /\ forall x, In (Some x) l -> (x <= m)%Z.
Proof.
  unfold Lodash.max. intros E. split.
  - destruct (baseExtremum_In _ _ _ _ E) as [[=]|Hin]; exact Hin.
  - apply (baseExtremum_bound Z.gtb (fun x y => (y <= x)%Z)) in E.
    + apply E.
    + intros; lia.
    + intros; lia.
    + intros c k. rewrite Z.gtb_ltb. destruct (Z.ltb_spec k c); lia.
Qed.

Lemma compact_date_In (l : list (option Z)) (x : Z) :
  In (Some x) (Lodash.compact l) <-> In (Some x) l /\ x <> 0%Z.
Proof.
  unfold Lodash.compact. rewrite filter_In.
  change (truthy (Some x)) with (negb (x =? 0)%Z).
  destruct (Z.eqb_spec x 0); simpl; intuition congruence.
Qed.

Lemma stats_of_dates (this : Album) :
  Stats.fromDate (stats_of this)
  = Lodash.min (Lodash.compact
      (map (fun a => st <- stats a ;; Stats.fromDate st) (albums this)
       ++ map File.date (files this))) /\
  Stats.toDate (stats_of this)
  = Lodash.max (Lodash.compact
      (map (fun a => st <- stats a ;; Stats.toDate st) (albums this)
       ++ map File.date (files this))).
Proof. split; reflexivity. Qed.

Lemma nested_date_In (field : Stats.t -> option Z) (cs : list Album) (x : Z) :
  In (Some x) (map (fun a => st <- stats a ;; field st) cs) <->
  exists c st, In c cs /\ stats c = Some st /\ field st = Some x.
Proof.
  rewrite in_map_iff. split.
  - intros (c & E & Hc). destruct (stats c) as [st|] eqn:Es; [|discriminate].
    exists c, st. auto.
  - intros (c & st & Hc & Es & Ef). exists c. rewrite Es. auto.
Qed.

Lemma stats_of_dates_ok (this : Album) :
  Forall has_date_range (albums this) -> dates_ok (stats_of this).
Proof.
  intros Hcs. rewrite Forall_forall in Hcs.
  unfold dates_ok. destruct (stats_of_dates this) as [-> ->].
  set (FL := Lodash.compact
               (map (fun a => st <- stats a ;; Stats.fromDate st) _ ++ _)).
  set (TL := Lodash.compact
               (map (fun a => st <- stats a ;; Stats.toDate st) _ ++ _)).
  (* a truthy date of one list gives one in the other list *)
  assert (from_to : forall f, In (Some f) FL ->
                     exists t, In (Some t) TL /\ (f <= t)%Z).
  { intros f Hf. apply compact_date_In in Hf as [Hf Hf0].
    apply in_app_or in Hf as [Hf|Hf].
    - apply nested_date_In in Hf as (c & st & Hc & Es & Ef).
      destruct (Hcs c Hc) as (st' & Es' & Hiff & Hord).
      rewrite Es in Es'. injection Es' as <-.
      destruct (Stats.toDate st) as [t|] eqn:Et.
      + destruct (Hord f t Ef eq_refl) as (_ & Ht0 & Hle).
        exists t. split; [|exact Hle].
        apply compact_date_In. split; [|exact Ht0].
        apply in_or_app. left. apply nested_date_In. exists c, st. auto.
      + destruct Hiff as [_ Hb]. rewrite (Hb eq_refl) in Ef. discriminate.
    - exists f. split; [|lia].
      apply compact_date_In. split; [|exact Hf0].
      apply in_or_app. right. exact Hf. }
  assert (to_from : forall t, In (Some t) TL -> exists f, In (Some f) FL).
  { intros t Ht. apply compact_date_In in Ht as [Ht Ht0].
    apply in_app_or in Ht as [Ht|Ht].
    - apply nested_date_In in Ht as (c & st & Hc & Es & Et).
      destruct (Hcs c Hc) as (st' & Es' & Hiff & Hord).
      rewrite Es in Es'. injection Es' as <-.
      destruct (Stats.fromDate st) as [f|] eqn:Ef.
      + destruct (Hord f t eq_refl Et) as (Hf0 & _ & _).
        exists f. apply compact_date_In. split; [|exact Hf0].
        apply in_or_app. left. apply nested_date_In. exists c, st. auto.
      + destruct Hiff as [Hb _]. rewrite (Hb eq_refl) in Et. discriminate.
    - exists t. apply compact_date_In. split; [|exact Ht0].
      apply in_or_app. right. exact Ht. }
  split; [split|].
  - intros E. destruct (Lodash.max TL) as [t|] eqn:Et; [|reflexivity].
    apply max_spec in Et as [Ht _]. destruct (to_from t Ht) as [f Hf].
    apply baseExtremum_defined in E as [_ E]. elim (E f Hf).
  - intros E. destruct (Lodash.min FL) as [f|] eqn:Ef; [|reflexivity].
    apply min_spec in Ef as [Hf _]. destruct (from_to f Hf) as (t & Ht & _).
    apply baseExtremum_defined in E as [_ E]. elim (E t Ht).
  - intros f t Ef Et.
    apply min_spec in Ef as [Hf _]. apply max_spec in Et as [Ht Hmax].
    destruct (from_to f Hf) as (t' & Ht' & Hle).
    specialize (Hmax t' Ht').
    apply compact_date_In in Hf as [_ Hf0]. apply compact_date_In in Ht as [_ Ht0].
    repeat split; [exact Hf0|exact Ht0|lia].
Qed.

Lemma complete_dates options this a' :
  Forall has_date_range (albums this) ->
  complete options this = Some a' -> has_date_range a'.
Proof.
  intros Hcs E.
  destruct (complete_fields _ _ _ E)
    as (_ & _ & _ & _ & _ & _ & _ & Est & _).
  exists (stats_of this). split; [exact Est|].
  apply stats_of_dates_ok, Hcs.
Qed.

(** C8. Date range monotonicity: in the tree that [finalize] returns,
    every album whose [stats.fromDate] and [stats.toDate] are both defined
    has [stats.fromDate <= stats.toDate]. *)
Theorem date_range_monotonicity
        (path_join url_resolve : string -> string -> string)
        (options : option Options) (parent : option Album) (root root' : Album) :
  finalize path_join url_resolve options parent root = Some root' ->
  forall n st f t,
    In n (nodes root') -> stats n = Some st ->
    Stats.fromDate st = Some f -> Stats.toDate st = Some t ->
    (f <= t)%Z.
Proof.
  intros E n st f t Hn Es Ef Et.
  destruct (finalize_nodes path_join url_resolve options has_date_range
              complete_dates parent root root' E n Hn) as (st' & Es' & _ & Hord).
  rewrite Es in Es'. injection Es' as <-.
  apply (Hord f t Ef Et).
Qed.

(** ** Previews *)

Lemma pickPreviews_previews (this : Album) :
  previews (pickPreviews this)
  = Some (firstn PREVIEW_COUNT (map Media (files this) ++ inherited (albums this))
          ++ repeat PREVIEW_MISSING
               (PREVIEW_COUNT
                - List.length (firstn PREVIEW_COUNT
                                 (map Media (files this)
                                  ++ inherited (albums this))))).
Proof. reflexivity. Qed.

Lemma complete_previews options this a' :
  complete options this = Some a' ->
  previews a'
  = Some (firstn PREVIEW_COUNT (map Media (files a') ++ inherited (albums a'))
          ++ repeat PREVIEW_MISSING
               (PREVIEW_COUNT
                - List.length (firstn PREVIEW_COUNT
                                 (map Media (files a')
                                  ++ inherited (albums a'))))).
Proof.
  intros E.
  destruct (complete_fields _ _ _ E)
    as (_ & _ & _ & _ & _ & _ & _ & _ & _ & _ & _ & Ep).
  rewrite Ep. apply pickPreviews_previews.
Qed.

Lemma complete_full_previews options this a' :
  Forall full_previews (albums this) ->
  complete options this = Some a' -> full_previews a'.
Proof.
  intros _ E. unfold full_previews. rewrite (complete_previews _ _ _ E).
  eexists. split; [reflexivity|].
  rewrite length_app, repeat_length.
  pose proof (firstn_le_length PREVIEW_COUNT
                (map Media (files a') ++ inherited (albums a'))).
  lia.
Qed.

Lemma inherited_only_placeholders (cs : list Album) :
  Forall only_placeholders cs -> inherited cs = [].
Proof.
  unfold inherited, nested_previews.
  induction 1 as [|c cs Hc _ IH]; simpl; [reflexivity|].
  rewrite filter_app, IH, Hc. reflexivity.
Qed.

Lemma locate_files path_join url_resolve options parent a :
  files (locate path_join url_resolve options parent a) = files a.
Proof.
  unfold locate.
  destruct (titleizeAlbumNames options), parent as [p|];
    try destruct (0 <? depth p)%nat; reflexivity.
Qed.

Lemma nodes_child (a c : Album) :
  In c (albums a) -> incl (nodes c) (nodes a).
Proof.
  intros Hc n Hn. rewrite (nodes_unfold a). right.
  apply in_flat_map. exists c. auto.
Qed.

Lemma finalize_no_files path_join url_resolve options parent a a' :
  finalize_with path_join url_resolve options parent a = Some a' ->
  Forall (fun n => files n = []) (nodes a) ->
  Forall only_placeholders (nodes a').
Proof.
  revert parent a a'.
  apply (finalize_call_ind path_join url_resolve options
           (fun _ a a' => Forall (fun n => files n = []) (nodes a) ->
                          Forall only_placeholders (nodes a'))).
  intros parent a nested a' Hn E Hfiles.
  assert (Hnested : Forall (fun c' => Forall only_placeholders (nodes c')) nested).
  { apply Forall_forall. intros c' Hc'.
    destruct (Forall2_In_r _ _ _ _ Hn Hc') as (c & Hc & _ & IH).
    apply IH. eapply incl_Forall; [apply nodes_child, Hc|exact Hfiles]. }
  destruct (complete_fields _ _ _ E)
    as (_ & _ & _ & _ & _ & _ & _ & _ & _ & Pf & Pa & _).
  simpl in Pf, Pa. rewrite locate_files in Pf.
  assert (Hchildren : Forall (fun c' => Forall only_placeholders (nodes c'))
                             (albums a')).
  { eapply Permutation_Forall; [exact Pa|exact Hnested]. }
  rewrite (nodes_unfold a'). constructor.
  - unfold only_placeholders. rewrite (complete_previews _ _ _ E).
    rewrite (nodes_unfold a) in Hfiles. inversion Hfiles as [|? ? Ha _]; subst.
    rewrite Ha in Pf. apply Permutation_nil in Pf. rewrite Pf.
    rewrite inherited_only_placeholders; [reflexivity|].
    eapply Forall_impl; [|exact Hchildren].
    intros c' Hc'. cbv beta in Hc'. rewrite nodes_unfold in Hc'.
    inversion Hc'; assumption.
  - apply Forall_flat_map. exact Hchildren.
Qed.

(** C2. Preview count invariant: in the tree that [finalize] returns,
    the [previews] of every album have exactly [PREVIEW_COUNT] = 10
    entries; when no album of the tree has a file, all ten are
    the placeholder. *)
Theorem preview_count_invariant
        (path_join url_resolve : string -> string -> string)
        (options : option Options) (parent : option Album) (root root' : Album) :
  finalize path_join url_resolve options parent root = Some root' ->
  PREVIEW_COUNT = 10 /\
  (forall n, In n (nodes root') ->
             exists l, previews n = Some l /\ List.length l = PREVIEW_COUNT) /\
  ((forall m, In m (nodes root) -> files m = []) ->
   forall n, In n (nodes root') ->
             previews n = Some (repeat PREVIEW_MISSING PREVIEW_COUNT)).
Proof.
  intros E. split; [reflexivity|]. split.
  - exact (finalize_nodes path_join url_resolve options full_previews
             complete_full_previews parent root root' E).
  - intros Hfiles. apply Forall_forall.
    eapply finalize_no_files; [exact E|].
    apply Forall_forall, Hfiles.
Qed.

Lemma inherited_media (cs : list Album) :
  Forall previews_shape cs -> exists rs, inherited cs = map Media rs.
Proof.
  unfold inherited, nested_previews.
  induction 1 as [|c cs (reals & Ep & _) _ (rs & IH)]; simpl.
  - exists []. reflexivity.
  - exists (reals ++ rs). rewrite filter_app, IH, Ep, filter_app, map_app.
    f_equal.
    assert (Hm : filter (fun file => negb (is_missing file)) (map Media reals)
                 = map Media reals).
    { clear. induction reals; simpl; congruence. }
    assert (Hr : forall k, filter (fun file => negb (is_missing file))
                                  (repeat PREVIEW_MISSING k) = []).
    { induction k; simpl; auto. }
    rewrite Hm, Hr. apply app_nil_r.
Qed.

Lemma complete_previews_shape options this a' :
  Forall previews_shape (albums this) ->
  complete options this = Some a' -> previews_shape a'.
Proof.
  intros Hcs E.
  destruct (complete_fields _ _ _ E)
    as (_ & _ & _ & _ & _ & _ & _ & _ & _ & _ & Pa & _).
  destruct (inherited_media (albums a')) as [rs Hrs].
  { eapply Permutation_Forall; [exact Pa|exact Hcs]. }
  exists (firstn PREVIEW_COUNT (files a' ++ rs)).
  rewrite (complete_previews _ _ _ E), Hrs.
  rewrite <- map_app, firstn_map, length_map. auto.
Qed.

(** C3. Placeholder provenance and position: in the tree that [finalize]
    returns, the [previews] of every album are media items followed by
    placeholders only; the media items are the first [PREVIEW_COUNT] of
    the album's own files and of the entries of the nested albums'
    previews other than the placeholder; and the number of placeholders is
    the album's own shortfall, [PREVIEW_COUNT] minus the number of media
    items. *)
Theorem placeholder_provenance
        (path_join url_resolve : string -> string -> string)
        (options : option Options) (parent : option Album) (root root' : Album) :
  finalize path_join url_resolve options parent root = Some root' ->
  forall n, In n (nodes root') ->
  exists reals : list File.t,
    previews n
    = Some (map Media reals
            ++ repeat PREVIEW_MISSING (PREVIEW_COUNT - List.length reals)) /\
    map Media reals
    = firstn PREVIEW_COUNT
        (map Media (files n)
         ++ filter (fun file => negb (is_missing file))
                   (nested_previews (albums n))) /\
    Forall (fun file => file <> PREVIEW_MISSING)
           (filter (fun file => negb (is_missing file))
                   (nested_previews (albums n))).
Proof.
  intros E n Hn.
  destruct (finalize_nodes path_join url_resolve options previews_shape
              complete_previews_shape parent root root' E n Hn)
    as (reals & Ep & Er).
  exists reals. split; [exact Ep|]. split; [exact Er|].
  apply Forall_forall. intros file Hf.
  apply filter_In in Hf as [_ Hf]. intros ->. discriminate.
Qed.

(** ** Summary *)

Lemma append_space_nonempty (a b : string) :
  ((a ++ " " ++ b) =? "")%string = false.
Proof. destruct a; reflexivity. Qed.

Lemma append_empty_r (s : string) : (s ++ "")%string = s.
Proof. induction s; simpl; congruence. Qed.

Lemma compact_itemCount (count : nat) (word : string) (rest : list string) :
  Lodash.compact (itemCount count word :: rest)
  = present [fragment count word] ++ Lodash.compact rest.
Proof.
  unfold Lodash.compact, itemCount, fragment. simpl.
  destruct count as [|[|k]]; simpl.
  - reflexivity.
  - rewrite append_empty_r. reflexivity.
  - unfold truthy at 1, Truthy_string.
    change (String " " (word ++ "s")) with (" " ++ (word ++ "s"))%string.
    rewrite append_space_nonempty. reflexivity.
Qed.

Lemma summary_of_text (st : Stats.t) : summary_of st = summary_text st.
Proof.
  unfold summary_of, summary_text.
  rewrite !compact_itemCount. simpl.
  rewrite !app_nil_r. reflexivity.
Qed.

Lemma complete_summarised options this a' :
  Forall summarised (albums this) ->
  complete options this = Some a' -> summarised a'.
Proof.
  intros _ E.
  destruct (complete_fields _ _ _ E)
    as (_ & _ & _ & _ & _ & _ & _ & Est & Esum & _).
  exists (stats_of this). rewrite <- summary_of_text. auto.
Qed.

(** C6. Summary formatting: in the tree that [finalize] returns, the
    [summary] of every album is the fragments for [stats.albums],
    [stats.photos] and [stats.videos], in that order, joined by a comma and
    a space; a fragment is left out when its count is 0 and ends in "s"
    when its count is greater than 1.  An album with no nested album, no
    video and 3 photos has the summary "3 photos". *)
Theorem summary_formatting
        (path_join url_resolve : string -> string -> string)
        (options : option Options) (parent : option Album) (root root' : Album) :
  finalize path_join url_resolve options parent root = Some root' ->
  forall n, In n (nodes root') ->
  exists st,
    stats n = Some st /\
    summary n = Some (summary_text st) /\
    (Stats.albums st = 0 -> Stats.photos st = 3 -> Stats.videos st = 0 ->
     summary n = Some "3 photos").
Proof.
  intros E n Hn.
  destruct (finalize_nodes path_join url_resolve options summarised
              complete_summarised parent root root' E n Hn) as (st & Es & Et).
  exists st. split; [exact Es|]. split; [exact Et|].
  intros Ha Hp Hv. rewrite Et. unfold summary_text.
  rewrite Ha, Hp, Hv. reflexivity.
Qed.

(** ** Empty albums *)

Lemma stats_of_empty (this : Album) :
  files this = [] -> albums this = [] ->
  stats_of this = Stats.mk 0 0 0 None None 0.
Proof.
  intros Hf Ha. unfold stats_of, calculateStats. rewrite Hf, Ha. reflexivity.
Qed.

(** C9. Graceful degradation on empty input: [finalize] of an album with
    no file and no nested album returns, and the statistics of the album
    are 0 albums, 0 photos, 0 videos, total 0, with [fromDate] and [toDate]
    undefined. *)
Theorem empty_album_stats
        (path_join url_resolve : string -> string -> string)
        (options : option Options) (parent : option Album) (a : Album) :
  files a = [] -> albums a = [] ->
  exists a',
    finalize path_join url_resolve options parent a = Some a' /\
    stats a' = Some (Stats.mk 0 0 0 None None 0).
Proof.
  intros Hf Ha.
  destruct (finalize_total path_join url_resolve options parent a) as [a' E].
  exists a'. split; [exact E|].
  unfold finalize in E. rewrite finalize_with_unfold, Ha in E. simpl in E.
  destruct (complete_fields _ _ _ E)
    as (_ & _ & _ & _ & _ & _ & _ & Est & _).
  rewrite Est. f_equal. apply stats_of_empty; simpl.
  - rewrite locate_files. exact Hf.
  - reflexivity.
Qed.

(** ** The root *)

Lemma locate_root path_join url_resolve options a :
  depth (locate path_join url_resolve options None a) = 0 /\
  path (locate path_join url_resolve options None a)
  = Some (or_else (index options) "index.html") /\
  url (locate path_join url_resolve options None a)
  = Some (or_else (index options) "index.html").
Proof.
  unfold locate. destruct (titleizeAlbumNames options); auto.
Qed.

Lemma or_else_index (options : option Options) :
  or_else (index match options with Some o => o | None => no_options end)
          "index.html"
  = index_file options.
Proof.
  unfold index_file, index_option, or_else.
  destruct options as [o|]; [|reflexivity].
  destruct (index o) as [i|]; [|reflexivity].
  unfold truthy, Truthy_string. destruct (i =? "")%string; reflexivity.
Qed.

(** C4 (amended). Root identity: for every [options] and every tree, the
    root that [finalize(options, null)] returns has depth 0, [home] true,
    and [path] and [url] both equal to [options.index] when that is a
    non-empty string, and to ['index.html'] when [options.index] is absent
    or empty; the title and the basename of the root play no part. *)
Theorem root_identity
        (path_join url_resolve : string -> string -> string)
        (options : option Options) (root root' : Album) :
  finalize path_join url_resolve options None root = Some root' ->
  depth root' = 0 /\ home root' = true /\
  path root' = Some (index_file options) /\
  url root' = Some (index_file options).
Proof.
  unfold finalize. rewrite finalize_with_unfold. intros E.
  apply bind_Some in E as (nested & _ & E).
  destruct (complete_fields _ _ _ E)
    as (_ & _ & _ & Ed & Eh & Ep & Eu & _).
  destruct (locate_root path_join url_resolve
              match options with Some o => o | None => no_options end root)
    as (Ld & Lp & Lu).
  rewrite Ed, Eh, Ep, Eu.
  change (depth (set_albums ?this _)) with (depth this).
  change (path (set_albums ?this _)) with (path this).
  change (url (set_albums ?this _)) with (url this).
  rewrite Ld, Lp, Lu, or_else_index. auto.
Qed.

(** ** Basenames *)

Lemma new_Album_basename (opts : AlbumArg) (index : nat) :
  basename (fst (new_Album opts index))
  = sanitise (title (fst (new_Album opts index))).
Proof.
  unfold new_Album.
  destruct (opts_id match opts with
                    | OfTitle s => mkAlbumOpts None (Some s) None None
                    | OfOpts o => o
                    end) as [i|]; [destruct (truthy i)|]; reflexivity.
Qed.

Section Children.
Variable path_join : string -> string -> string.
Variable url_resolve : string -> string -> string.

Let finalize_with := finalize_with path_join url_resolve.
Let locate := locate path_join url_resolve.

(** Every nested album is finalized with the album, located, for parent;
    what the call returns is a nested album of the result. *)
Lemma finalize_with_child options parent a a' c :
  finalize_with options parent a = Some a' ->
  In c (albums a) ->
  exists c',
    In c' (albums a') /\
    finalize_with options (Some (locate options parent a)) c = Some c'.
Proof.
  intros E Hc. unfold finalize_with in E. rewrite finalize_with_unfold in E.
  apply bind_Some in E as (nested & En & E).
  apply mapM_Forall2 in En.
  destruct (Forall2_In_l _ _ _ _ En Hc) as (c' & Hc' & Ec).
  destruct (complete_fields _ _ _ E)
    as (_ & _ & _ & _ & _ & _ & _ & _ & _ & _ & Pa & _).
  exists c'. split; [|exact Ec].
  eapply Permutation_in; [exact Pa|exact Hc'].
Qed.

(** The fields that the first part of [finalize] sets stay as they are. *)
Lemma finalize_with_located options parent a a' :
  finalize_with options parent a = Some a' ->
  id a' = id (locate options parent a) /\
  title a' = title (locate options parent a) /\
  basename a' = basename (locate options parent a) /\
  depth a' = depth (locate options parent a).
Proof.
  intros E. unfold finalize_with in E. rewrite finalize_with_unfold in E.
  apply bind_Some in E as (nested & _ & E).
  destruct (complete_fields _ _ _ E) as (Ei & Et & Eb & Ed & _).
  auto.
Qed.

End Children.

Lemma locate_child path_join url_resolve options p a :
  id (locate path_join url_resolve options (Some p) a) = id a /\
  title (locate path_join url_resolve options (Some p) a)
  = (if titleizeAlbumNames options then titleize (title a) else title a) /\
  basename (locate path_join url_resolve options (Some p) a)
  = (if (0 <? depth p)%nat then (basename p ++ "-" ++ basename a)%string
     else basename a) /\
  depth (locate path_join url_resolve options (Some p) a) = depth p + 1.
Proof.
  unfold locate.
  destruct (titleizeAlbumNames options), (0 <? depth p)%nat; auto.
Qed.

Lemma locate_root_fields path_join url_resolve options a :
  id (locate path_join url_resolve options None a) = id a /\
  title (locate path_join url_resolve options None a)
  = (if titleizeAlbumNames options then titleize (title a) else title a) /\
  basename (locate path_join url_resolve options None a) = basename a.
Proof.
  unfold locate. destruct (titleizeAlbumNames options); auto.
Qed.

(** C5 (amended). Basename chaining: in a tree of three levels, A under
    the root and B under A, whose albums the constructor built, [finalize]
    on the root finalizes A under the root (depth 0) and B under A
    (depth 1); the basename of A is then [sanitise] of the title A was
    constructed with, with no prefix, and the basename of B is the
    basename of A, a hyphen and [sanitise] of the title B was constructed
    with.  These titles are still the titles of A and B after [finalize]
    when [titleizeAlbumNames] is off. *)
Theorem basename_chaining
        (path_join url_resolve : string -> string -> string)
        (options : option Options) (root A B root' : Album) :
  finalize path_join url_resolve options None root = Some root' ->
  In A (albums root) -> In B (albums A) ->
  basename A = sanitise (title A) -> basename B = sanitise (title B) ->
  exists rootp A' Ap B',
    depth rootp = 0 /\
    finalize path_join url_resolve options (Some rootp) A = Some A' /\
    In A' (albums root') /\
    depth Ap = 1 /\ basename Ap = basename A' /\
    finalize path_join url_resolve options (Some Ap) B = Some B' /\
    In B' (albums A') /\
    id A' = id A /\ id B' = id B /\
    basename A' = sanitise (title A) /\
    basename B' = (basename A' ++ "-" ++ sanitise (title B))%string /\
    (titleizes options = false -> title A' = title A /\ title B' = title B).
Proof.
  intros E HA HB EA EB. unfold finalize in *.
  remember (match options with Some o => o | None => no_options end) as o eqn:Eo.
  destruct (finalize_with_child _ _ _ _ _ _ _ E HA) as (A' & HA' & EA').
  destruct (finalize_with_child _ _ _ _ _ _ _ EA' HB) as (B' & HB' & EB').
  destruct (locate_root path_join url_resolve o root) as (Dr & _).
  remember (locate path_join url_resolve o None root) as rootp eqn:Erootp.
  destruct (locate_child path_join url_resolve o rootp A) as (Ia & Ta & Ba & Da).
  remember (locate path_join url_resolve o (Some rootp) A) as Ap eqn:EAp.
  rewrite Dr in Ba, Da.
  change (0 <? 0)%nat with false in Ba. change (0 + 1) with 1 in Da.
  destruct (locate_child path_join url_resolve o Ap B) as (Ib & Tb & Bb & Db).
  rewrite Da in Bb. change (0 <? 1)%nat with true in Bb.
  destruct (finalize_with_located _ _ _ _ _ _ EA') as (Ia' & Ta' & Ba' & _).
  destruct (finalize_with_located _ _ _ _ _ _ EB') as (Ib' & Tb' & Bb' & _).
  rewrite <- EAp in Ia', Ta', Ba'.
  cbv iota in Ba, Bb.
  assert (Ho : titleizes options = false -> titleizeAlbumNames o = false).
  { intros Ht. rewrite Eo. destruct options; [exact Ht|reflexivity]. }
  exists rootp, A', Ap, B'.
  repeat match goal with |- _ /\ _ => split end;
    try assumption; try congruence.
  intros Ht. rewrite (Ho Ht) in Ta, Tb. split; congruence.
Qed.

(** ** The characters of a basename *)

Lemma basename_char_allowed (c : ascii) : basename_char c = allowed_char c.
Proof.
  destruct c as [[] [] [] [] [] [] [] []]; reflexivity.
Qed.

Lemma sanitise_allowed (s : string) : sanitise s = sfilter allowed_char s.
Proof.
  unfold sanitise. induction s as [|c r IH]; simpl; [reflexivity|].
  rewrite basename_char_allowed, IH. reflexivity.
Qed.

Lemma sfilter_sforallb (p : ascii -> bool) (s : string) :
  sforallb p (sfilter p s) = true.
Proof.
  induction s as [|c r IH]; simpl; [reflexivity|].
  destruct (p c) eqn:Ec; simpl; [rewrite Ec|]; exact IH.
Qed.

Lemma sanitise_safe (s : string) : safe (sanitise s).
Proof.
  unfold safe. rewrite sanitise_allowed. apply sfilter_sforallb.
Qed.

Lemma sforallb_append (p : ascii -> bool) (a b : string) :
  sforallb p (a ++ b) = sforallb p a && sforallb p b.
Proof.
  induction a as [|c r IH]; simpl; [reflexivity|].
  rewrite IH. apply andb_assoc.
Qed.

Lemma prefixed_safe (a b : string) :
  safe a -> safe b -> safe (a ++ "-" ++ b).
Proof.
  unfold safe. intros Ha Hb.
  rewrite !sforallb_append, Ha, Hb. reflexivity.
Qed.

Lemma locate_safe path_join url_resolve options parent a :
  (forall p, parent = Some p -> safe (basename p)) ->
  safe (basename a) ->
  safe (basename (locate path_join url_resolve options parent a)).
Proof.
  intros Hp Ha. destruct parent as [p|].
  - destruct (locate_child path_join url_resolve options p a)
      as (_ & _ & -> & _).
    destruct (0 <? depth p)%nat; [|exact Ha].
    apply prefixed_safe; [apply Hp; reflexivity|exact Ha].
  - destruct (locate_root_fields path_join url_resolve options a)
      as (_ & _ & ->).
    exact Ha.
Qed.

Lemma finalize_with_safe path_join url_resolve options parent a a' :
  finalize_with path_join url_resolve options parent a = Some a' ->
  (forall p, parent = Some p -> safe (basename p)) ->
  Forall (fun m => safe (basename m)) (nodes a) ->
  Forall (fun n => safe (basename n)) (nodes a').
Proof.
  revert parent a a'.
  apply (finalize_call_ind path_join url_resolve options
           (fun parent a a' =>
              (forall p, parent = Some p -> safe (basename p)) ->
              Forall (fun m => safe (basename m)) (nodes a) ->
              Forall (fun n => safe (basename n)) (nodes a'))).
  intros parent a nested a' Hn E Hp Ha.
  assert (Hthis : safe (basename (locate path_join url_resolve options parent a))).
  { apply locate_safe; [exact Hp|].
    rewrite nodes_unfold in Ha. inversion Ha; assumption. }
  destruct (complete_fields _ _ _ E)
    as (_ & _ & Eb & _ & _ & _ & _ & _ & _ & _ & Pa & _).
  rewrite (nodes_unfold a'). constructor.
  - rewrite Eb. exact Hthis.
  - apply Forall_flat_map.
    eapply Permutation_Forall; [exact Pa|].
    apply Forall_forall. intros c' Hc'.
    destruct (Forall2_In_r _ _ _ _ Hn Hc') as (c & Hc & _ & IH).
    apply IH.
    + intros p [= <-]. exact Hthis.
    + eapply incl_Forall; [apply nodes_child, Hc|exact Ha].
Qed.

(** C10. The characters of a basename: the basename of an album that the
    constructor builds is its title without the characters other than
    ASCII letters, digits, hyphens and underscores, so it has those
    characters only; and when every album of a tree has such a basename,
    every album of the tree that [finalize] returns has one too. *)
Theorem basename_characters :
  (forall (opts : AlbumArg) (index : nat),
      basename (fst (new_Album opts index))
      = sfilter allowed_char (title (fst (new_Album opts index)))
      /\ safe (basename (fst (new_Album opts index)))) /\
  (forall (path_join url_resolve : string -> string -> string)
          (options : option Options) (root root' : Album),
      (forall m, In m (nodes root) -> safe (basename m)) ->
      finalize path_join url_resolve options None root = Some root' ->
      forall n, In n (nodes root') -> safe (basename n)).
Proof.
  split.
  - intros opts index. rewrite new_Album_basename. split.
    + apply sanitise_allowed.
    + apply sanitise_safe.
  - intros path_join url_resolve options root root' Hroot E.
    apply Forall_forall.
    eapply finalize_with_safe; [exact E| |apply Forall_forall, Hroot].
    intros p [=].
Qed.

(** ** Numbers first *)

Lemma map_title_3 (l : list Album) (t1 t2 t3 : string) :
  map title l = [t1; t2; t3] ->
  exists a1 a2 a3,
    l = [a1; a2; a3] /\ title a1 = t1 /\ title a2 = t2 /\ title a3 = t3.
Proof.
  destruct l as [|a1 [|a2 [|a3 [|a4 l]]]]; try discriminate.
  intros [= E1 E2 E3]. exists a1, a2, a3. auto.
Qed.

Lemma sforallb_ext (p q : ascii -> bool) (s : string) :
  (forall c, p c = q c) -> sforallb p s = sforallb q s.
Proof.
  intros E. induction s as [|c r IH]; simpl; [reflexivity|].
  rewrite E, IH. reflexivity.
Qed.

Lemma numeric_title_pattern (a : Album) :
  numeric_title a = digits_and_hyphens (title a).
Proof.
  unfold numeric_title, digits_and_hyphens. f_equal.
  apply sforallb_ext.
  intros c. destruct c as [[] [] [] [] [] [] [] []]; reflexivity.
Qed.

(** C7. Numbers-first partition: when [sortAlmbumsNumbersFirst] is on,
    [sort] leaves in [albums] the albums whose title matches [^[0-9-]+$]
    from end to end, in the order the sort by the key gave them, followed
    by the other albums, in the order the sort by the key gave them.
    Albums titled "Zebra", "2023", "Apple", sorted by title in ascending
    order, come out as "2023", "Apple", "Zebra". *)
Theorem numbers_first_partition (options : Options) (this this' : Album) :
  sortAlmbumsNumbersFirst options = true ->
  sort options this = Some this' ->
  (exists sorted,
      orderBy_with (albums this) (lookup SORT_ALBUMS_BY (sortAlbumsBy options))
                   (sortAlbumsDirection options) = Some sorted /\
      albums this'
      = filter (fun a => digits_and_hyphens (title a)) sorted
        ++ filter (fun a => negb (digits_and_hyphens (title a))) sorted) /\
  (sortAlbumsBy options = Some "title" ->
   sortAlbumsDirection options = Some "asc" ->
   map title (albums this) = ["Zebra"; "2023"; "Apple"] ->
   map title (albums this') = ["2023"; "Apple"; "Zebra"]).
Proof.
  intros Hnf E.
  apply sort_inv in E as (fs & als & _ & Eals & ->). rewrite Hnf.
  split.
  - exists als. split; [exact Eals|].
    change (albums (set_albums ?x ?l)) with l.
    f_equal; apply filter_ext; intros a; rewrite numeric_title_pattern;
      reflexivity.
  - intros Hby Hdir Ht. rewrite Hby, Hdir in Eals.
    change (albums (set_files this fs)) with (albums this) in Eals.
    apply map_title_3 in Ht as (z & n & a & Hl & Hz & Hn & Ha).
    rewrite Hl in Eals. clear Hl.
    destruct z, n, a. simpl in Hz, Hn, Ha. subst.
    vm_compute in Eals. injection Eals as <-.
    vm_compute. reflexivity.
Qed.

(** ** The properties on the sample gallery *)

Example sample_summary :
  summary Sample.finalized = Some "2 albums, 4 photos, 1 video"
  /\ map title (albums Sample.finalized) = ["2024"; "Vacation2023"]
  /\ map basename (nodes Sample.finalized)
     = ["Home"; "2024"; "Vacation2023"; "Vacation2023-beach_day"]
  /\ map path (nodes Sample.finalized)
     = [Some "index.html"; Some "albums/2024.html";
        Some "albums/Vacation2023.html";
        Some "albums/Vacation2023-beach_day.html"].
Proof. repeat split; reflexivity. Qed.

Lemma sample_finalized :
  finalize Sample.path_join Sample.url_resolve (Some Sample.options) None
           Sample.root
  = Some Sample.finalized.
Proof. vm_compute. reflexivity. Qed.

Lemma stats_additivity_witness :
  finalize Sample.path_join Sample.url_resolve (Some Sample.options) None
           Sample.root = Some Sample.finalized
  /\ forall n, In n (nodes Sample.finalized) -> additive n.
Proof.
  split; [vm_compute; reflexivity|].
  apply (stats_additivity Sample.path_join Sample.url_resolve
           (Some Sample.options) None Sample.root Sample.finalized).
  vm_compute. reflexivity.
Defined.

Lemma preview_count_invariant_witness :
  finalize Sample.path_join Sample.url_resolve (Some Sample.options) None
           Sample.empty
  = Some (pickPreviews
            (set_summary
               (set_stats
                  (set_url (set_path (set_home Sample.empty true) "index.html")
                           "index.html")
                  (Stats.mk 0 0 0 None None 0)) ""))
  /\ forall n,
      In n (nodes (pickPreviews
                     (set_summary
                        (set_stats
                           (set_url (set_path (set_home Sample.empty true)
                                              "index.html") "index.html")
                           (Stats.mk 0 0 0 None None 0)) ""))) ->
      previews n = Some (repeat PREVIEW_MISSING PREVIEW_COUNT).
Proof.
  split; [vm_compute; reflexivity|].
  apply (preview_count_invariant Sample.path_join Sample.url_resolve
           (Some Sample.options) None Sample.empty).
  - vm_compute. reflexivity.
  - intros m Hm. vm_compute in Hm. destruct Hm as [<-|[]]. reflexivity.
Defined.

Lemma placeholder_provenance_witness :
  finalize Sample.path_join Sample.url_resolve (Some Sample.options) None
           Sample.root = Some Sample.finalized
  /\ forall n, In n (nodes Sample.finalized) ->
       exists reals : list File.t,
         previews n
         = Some (map Media reals
                 ++ repeat PREVIEW_MISSING (PREVIEW_COUNT - List.length reals)) /\
         map Media reals
         = firstn PREVIEW_COUNT
             (map Media (files n)
              ++ filter (fun file => negb (is_missing file))
                        (nested_previews (albums n))) /\
         Forall (fun file => file <> PREVIEW_MISSING)
                (filter (fun file => negb (is_missing file))
                        (nested_previews (albums n))).
Proof.
  split; [vm_compute; reflexivity|].
  apply (placeholder_provenance Sample.path_join Sample.url_resolve
           (Some Sample.options) None Sample.root Sample.finalized).
  vm_compute. reflexivity.
Defined.

Lemma summary_formatting_witness :
  finalize Sample.path_join Sample.url_resolve (Some Sample.options) None
           Sample.root = Some Sample.finalized
  /\ forall n, In n (nodes Sample.finalized) ->
       exists st,
         stats n = Some st /\
         summary n = Some (summary_text st) /\
         (Stats.albums st = 0 -> Stats.photos st = 3 -> Stats.videos st = 0 ->
          summary n = Some "3 photos").
Proof.
  split; [vm_compute; reflexivity|].
  apply (summary_formatting Sample.path_join Sample.url_resolve
           (Some Sample.options) None Sample.root Sample.finalized).
  vm_compute. reflexivity.
Defined.

Lemma date_range_monotonicity_witness :
  finalize Sample.path_join Sample.url_resolve (Some Sample.options) None
           Sample.root = Some Sample.finalized
  /\ stats Sample.finalized
     = Some (Stats.mk 2 4 1 (Some 1690000000%Z) (Some 1710000000%Z) 5)
  /\ (1690000000 <= 1710000000)%Z.
Proof.
  split; [vm_compute; reflexivity|]. split; [reflexivity|].
  apply (date_range_monotonicity Sample.path_join Sample.url_resolve
           (Some Sample.options) None Sample.root Sample.finalized
           ltac:(vm_compute; reflexivity) Sample.finalized
           (Stats.mk 2 4 1 (Some 1690000000%Z) (Some 1710000000%Z) 5)).
  - vm_compute. left. reflexivity.
  - reflexivity.
  - reflexivity.
  - reflexivity.
Defined.

Lemma empty_album_stats_witness :
  files Sample.empty = [] /\ albums Sample.empty = [] /\
  exists a',
    finalize Sample.path_join Sample.url_resolve None None Sample.empty
    = Some a' /\
    stats a' = Some (Stats.mk 0 0 0 None None 0).
Proof.
  split; [reflexivity|]. split; [reflexivity|].
  apply (empty_album_stats Sample.path_join Sample.url_resolve None None
           Sample.empty); reflexivity.
Defined.

Lemma numbers_first_partition_witness :
  sortAlmbumsNumbersFirst Sample.options = true /\
  sort Sample.options Sample.shelf = Some Sample.shelf_sorted /\
  map title (albums Sample.shelf) = ["Zebra"; "2023"; "Apple"] /\
  map title (albums Sample.shelf_sorted) = ["2023"; "Apple"; "Zebra"].
Proof.
  split; [reflexivity|]. split; [vm_compute; reflexivity|].
  split; [reflexivity|].
  apply (numbers_first_partition Sample.options Sample.shelf Sample.shelf_sorted);
    reflexivity.
Defined.

Lemma basename_characters_witness :
  Forall (fun m => safe (basename m)) (nodes Sample.root) /\
  finalize Sample.path_join Sample.url_resolve (Some Sample.options) None
           Sample.root = Some Sample.finalized /\
  forall n, In n (nodes Sample.finalized) -> safe (basename n).
Proof.
  split; [vm_compute; repeat constructor|].
  split; [vm_compute; reflexivity|].
  apply (proj2 basename_characters Sample.path_join Sample.url_resolve
           (Some Sample.options) Sample.root Sample.finalized).
  - apply Forall_forall. vm_compute. repeat constructor.
  - vm_compute. reflexivity.
Defined.

(** With [options.index] the empty string, the root is written to
    ['index.html'], not to [options.index]. *)
Lemma root_identity_empty_index :
  ~ root_identity_as_stated Sample.path_join Sample.url_resolve
      (Some Sample.empty_index) Sample.root.
Proof.
  unfold root_identity_as_stated. intros H.
  edestruct H as (_ & _ & Hp & _); [vm_compute; reflexivity|].
  vm_compute in Hp. discriminate Hp.
Qed.

Lemma root_identity_witness :
  finalize Sample.path_join Sample.url_resolve (Some Sample.empty_index) None
           Sample.empty
  = Some (pickPreviews
            (set_summary
               (set_stats
                  (set_url (set_path (set_home Sample.empty true) "index.html")
                           "index.html")
                  (Stats.mk 0 0 0 None None 0)) ""))
  /\ index_file (Some Sample.empty_index) = "index.html"
  /\ path (pickPreviews
            (set_summary
               (set_stats
                  (set_url (set_path (set_home Sample.empty true) "index.html")
                           "index.html")
                  (Stats.mk 0 0 0 None None 0)) ""))
     = Some (index_file (Some Sample.empty_index)).
Proof.
  split; [vm_compute; reflexivity|]. split; [reflexivity|].
  apply (root_identity Sample.path_join Sample.url_resolve
           (Some Sample.empty_index) Sample.empty).
  vm_compute. reflexivity.
Defined.

(** With [titleizeAlbumNames] on, the album "beach_day" is titled
    "Beach Day" after [finalize] and keeps the basename
    "Vacation2023-beach_day". *)
Lemma basename_chaining_titleized :
  ~ basename_chaining_as_stated Sample.path_join Sample.url_resolve
      (Some Sample.titleized) Sample.root.
Proof.
  unfold basename_chaining_as_stated. intros H.
  edestruct H as (Hb & _).
  - vm_compute. reflexivity.
  - left. reflexivity.
  - left. reflexivity.
  - vm_compute in Hb. discriminate Hb.
Qed.

Lemma basename_chaining_witness :
  In Sample.vacation (albums Sample.root) /\
  In Sample.beach (albums Sample.vacation) /\
  exists rootp A' Ap B',
    depth rootp = 0 /\
    finalize Sample.path_join Sample.url_resolve (Some Sample.options)
             (Some rootp) Sample.vacation = Some A' /\
    In A' (albums Sample.finalized) /\
    depth Ap = 1 /\ basename Ap = basename A' /\
    finalize Sample.path_join Sample.url_resolve (Some Sample.options)
             (Some Ap) Sample.beach = Some B' /\
    In B' (albums A') /\
    id A' = id Sample.vacation /\ id B' = id Sample.beach /\
    basename A' = sanitise (title Sample.vacation) /\
    basename B' = (basename A' ++ "-" ++ sanitise (title Sample.beach))%string /\
    (titleizes (Some Sample.options) = false ->
     title A' = title Sample.vacation /\ title B' = title Sample.beach).
Proof.
  split; [left; reflexivity|]. split; [left; reflexivity|].
  apply (basename_chaining Sample.path_join Sample.url_resolve
           (Some Sample.options) Sample.root Sample.vacation Sample.beach
           Sample.finalized).
  - vm_compute. reflexivity.
  - left. reflexivity.
  - left. reflexivity.
  - reflexivity.
  - reflexivity.
Defined.

(* ------------------------------------------------------------------ *)
(** * Further properties *)

(** ** [finalize] returns, and sets every field *)




(** ** Depths, [home] and the places of the nested albums *)

Lemma locate_child_place path_join url_resolve options p a :
  path (locate path_join url_resolve options (Some p) a)
  = Some (path_join (or_else (albumsOutputFolder options) ".")
            (basename (locate path_join url_resolve options (Some p) a)
             ++ ".html")%string) /\
  url (locate path_join url_resolve options (Some p) a)
  = Some (url_resolve (or_else (albumsOutputFolder options) "." ++ "/")%string
            (basename (locate path_join url_resolve options (Some p) a)
             ++ ".html")%string).
Proof.
  unfold locate.
  destruct (titleizeAlbumNames options), (0 <? depth p)%nat; split; reflexivity.
Qed.

(** What a call of [finalize] with a parent returns. *)
Lemma finalize_with_under path_join url_resolve options p a a' :
  finalize_with path_join url_resolve options (Some p) a = Some a' ->
  depth a' = depth p + 1 /\
  home a' = false /\
  path a' = Some (path_join (output_folder (Some options))
                            (basename a' ++ ".html")%string) /\
  url a' = Some (url_resolve (output_folder (Some options) ++ "/")%string
                             (basename a' ++ ".html")%string) /\
  basename a' = (if (0 <? depth p)%nat
                 then (basename p ++ "-" ++ basename a)%string
                 else basename a).
Proof.
  intros E.
  destruct (finalize_with_located _ _ _ _ _ _ E) as (_ & _ & Eb & Ed).
  rewrite finalize_with_unfold in E.
  apply bind_Some in E as (nested & _ & E).
  destruct (complete_fields _ _ _ E)
    as (_ & _ & _ & _ & Eh & Ep & Eu & _).
  destruct (locate_child path_join url_resolve options p a)
    as (_ & _ & Lb & Ld).
  destruct (locate_child_place path_join url_resolve options p a) as [Lp Lu].
  change (depth (set_albums ?this _)) with (depth this) in Eh.
  change (path (set_albums ?this _)) with (path this) in Ep.
  change (url (set_albums ?this _)) with (url this) in Eu.
  rewrite Ld in Eh, Ed. rewrite Lp in Ep. rewrite Lu in Eu.
  rewrite <- Eb in Ep, Eu. rewrite Lb in Eb.
  split; [exact Ed|]. split.
  - rewrite Eh. apply Nat.eqb_neq. lia.
  - auto.
Qed.

Lemma finalize_with_home path_join url_resolve options parent a a' :
  finalize_with path_join url_resolve options parent a = Some a' ->
  home a' = (depth a' =? 0)%nat.
Proof.
  intros E. rewrite finalize_with_unfold in E.
  apply bind_Some in E as (nested & _ & E).
  destruct (complete_fields _ _ _ E) as (_ & _ & _ & Ed & Eh & _).
  rewrite Eh, Ed. reflexivity.
Qed.

Lemma finalize_with_well_placed path_join url_resolve options parent a a' :
  finalize_with path_join url_resolve options parent a = Some a' ->
  Forall (well_placed path_join url_resolve (Some options)) (nodes a').
Proof.
  intros E0. pose proof E0 as E. revert parent a a' E0 E.
  apply (finalize_call_ind path_join url_resolve options
           (fun parent a a' =>
              finalize_with path_join url_resolve options parent a = Some a' ->
              Forall (well_placed path_join url_resolve (Some options))
                     (nodes a'))).
  intros parent a nested a' Hn E E0.
  destruct (finalize_with_located _ _ _ _ _ _ E0) as (_ & _ & Eb & Ed).
  destruct (complete_fields _ _ _ E)
    as (_ & _ & _ & _ & _ & _ & _ & _ & _ & _ & Pa & _).
  change (albums (set_albums _ nested)) with nested in Pa.
  rewrite nodes_unfold. constructor.
  - split; [exact (finalize_with_home _ _ _ _ _ _ E0)|].
    intros c' Hc'.
    apply (Permutation_in _ (Permutation_sym Pa)) in Hc'.
    destruct (Forall2_In_r _ _ _ _ Hn Hc') as (c & _ & Ec & _).
    destruct (finalize_with_under _ _ _ _ _ _ Ec) as (Cd & Ch & Cp & Cu & Cb).
    rewrite <- Ed, <- Eb in *.
    repeat split; try assumption.
    intros Hd. apply Nat.ltb_lt in Hd. rewrite Hd in Cb.
    exists (basename c). exact Cb.
  - apply Forall_flat_map. eapply Permutation_Forall; [exact Pa|].
    apply Forall_forall. intros c' Hc'.
    destruct (Forall2_In_r _ _ _ _ Hn Hc') as (c & _ & Ec & Hc).
    apply Hc. exact Ec.
Qed.

(** X2. Depths and [home]: in the tree that [finalize(options, null)]
    returns, the root has depth 0, every nested album is one level deeper
    than the album that holds it, and [home] is true for the albums of
    depth 0 only, so for no nested album. *)
Theorem depth_and_home
        (path_join url_resolve : string -> string -> string)
        (options : option Options) (root root' : Album) :
  finalize path_join url_resolve options None root = Some root' ->
  depth root' = 0 /\
  forall n, In n (nodes root') ->
    home n = (depth n =? 0)%nat /\
    forall c, In c (albums n) -> depth c = depth n + 1 /\ home c = false.
Proof.
  intros E. unfold finalize in E. split.
  - destruct (finalize_with_located _ _ _ _ _ _ E) as (_ & _ & _ & Ed).
    rewrite Ed. apply locate_root.
  - intros n Hn.
    pose proof (finalize_with_well_placed _ _ _ _ _ _ E) as W.
    rewrite Forall_forall in W. destruct (W n Hn) as [Hh Hc].
    split; [exact Hh|]. intros c Hin. destruct (Hc c Hin) as (Cd & Ch & _).
    auto.
Qed.

(** X3. Places of the nested albums: in the tree that [finalize] returns,
    an album held by another is written to [basename + '.html'] in the
    output folder ([options.albumsOutputFolder], or ['.']), its [url] is
    that file name resolved against the folder followed by a slash, and
    when the album that holds it is itself nested (depth above 0) its
    basename starts with the basename of that album and a hyphen. *)
Theorem nested_album_places
        (path_join url_resolve : string -> string -> string)
        (options : option Options) (parent : option Album) (root root' : Album) :
  finalize path_join url_resolve options parent root = Some root' ->
  forall n c, In n (nodes root') -> In c (albums n) ->
    path c = Some (path_join (output_folder options)
                             (basename c ++ ".html")%string) /\
    url c = Some (url_resolve (output_folder options ++ "/")%string
                              (basename c ++ ".html")%string) /\
    (0 < depth n -> exists b, basename c = (basename n ++ "-" ++ b)%string).
Proof.
  intros E n c Hn Hc. unfold finalize in E.
  pose proof (finalize_with_well_placed _ _ _ _ _ _ E) as W.
  rewrite Forall_forall in W. destruct (W n Hn) as [_ Hw].
  destruct (Hw c Hc) as (_ & _ & Cp & Cu & Cb).
  split; [exact Cp|]. split; [exact Cu|exact Cb].
Qed.

(** ** What the statistics count *)

Lemma list_sum_flat_map {A B} (g : B -> nat) (f : A -> list B) (l : list A) :
  list_sum (map g (flat_map f l))
  = list_sum (map (fun x => list_sum (map g (f x))) l).
Proof.
  induction l as [|x r IH]; simpl; [reflexivity|].
  rewrite map_app, list_sum_app, IH. reflexivity.
Qed.

Lemma subtree_count_unfold type (n : Album) :
  subtree_count type n
  = count_type type (files n)
    + list_sum (map (subtree_count type) (albums n)).
Proof.
  unfold subtree_count. rewrite nodes_unfold. simpl.
  rewrite list_sum_flat_map. reflexivity.
Qed.

Lemma complete_counts_subtree options this a' :
  Forall counts_subtree (albums this) ->
  complete options this = Some a' -> counts_subtree a'.
Proof.
  intros Hcs E.
  destruct (complete_fields _ _ _ E)
    as (_ & _ & _ & _ & _ & _ & _ & Est & _ & Pf & Pa & _).
  destruct (stats_of_counts this) as (Ha & Hp & Hv & _).
  assert (Hsub : forall field type,
             Forall (fun c => stat field c = subtree_count type c) (albums this) ->
             list_sum (map (stat field) (albums this))
             + count_type type (files this)
             = subtree_count type a').
  { intros field type Hf. rewrite (subtree_count_unfold type a').
    rewrite <- (count_type_Permutation _ _ _ Pf).
    rewrite <- (list_sum_Permutation _ _ (Permutation_map _ Pa)).
    rewrite (map_ext_in (stat field) (subtree_count type)).
    - lia.
    - apply Forall_forall. exact Hf. }
  exists (stats_of this). split; [exact Est|]. split; [|split].
  - rewrite Ha. apply Permutation_length, Pa.
  - rewrite Hp. apply Hsub.
    eapply Forall_impl; [|exact Hcs].
    intros c (st & Es & _ & Ec & _). unfold stat. rewrite Es. exact Ec.
  - rewrite Hv. apply Hsub.
    eapply Forall_impl; [|exact Hcs].
    intros c (st & Es & _ & _ & Ec). unfold stat. rewrite Es. exact Ec.
Qed.

(** X4. What the statistics count: in the tree that [finalize] returns,
    [stats.albums] of an album is the number of the albums it holds
    directly, while [stats.photos] and [stats.videos] are the numbers of
    files of type ['image'] and ['video'] in the whole tree under the
    album, the album's own files included. *)
Theorem stats_count_subtree
        (path_join url_resolve : string -> string -> string)
        (options : option Options) (parent : option Album) (root root' : Album) :
  finalize path_join url_resolve options parent root = Some root' ->
  forall n, In n (nodes root') ->
  exists st,
    stats n = Some st /\
    Stats.albums st = List.length (albums n) /\
    Stats.photos st = subtree_count "image" n /\
    Stats.videos st = subtree_count "video" n.
Proof.
  intros E n Hn.
  exact (finalize_nodes path_join url_resolve options counts_subtree
           complete_counts_subtree parent root root' E n Hn).
Qed.

(** ** The date range and the files *)

Lemma min_exists (l : list (option Z)) (x : Z) :
  In (Some x) l -> exists m, Lodash.min l = Some m /\ (m <= x)%Z.
Proof.
  intros Hx. destruct (Lodash.min l) as [m|] eqn:E.
  - exists m. split; [reflexivity|]. apply (min_spec _ _ E), Hx.
  - apply baseExtremum_defined in E as [_ E]. elim (E x Hx).
Qed.

Lemma max_exists (l : list (option Z)) (x : Z) :
  In (Some x) l -> exists m, Lodash.max l = Some m /\ (x <= m)%Z.
Proof.
  intros Hx. destruct (Lodash.max l) as [m|] eqn:E.
  - exists m. split; [reflexivity|]. apply (max_spec _ _ E), Hx.
  - apply baseExtremum_defined in E as [_ E]. elim (E x Hx).
Qed.

Lemma subtree_files_In (n : Album) (file : File.t) :
  In file (subtree_files n) <->
  In file (files n) \/ exists c, In c (albums n) /\ In file (subtree_files c).
Proof.
  unfold subtree_files. rewrite (nodes_unfold n). simpl.
  rewrite in_app_iff, in_flat_map. split.
  - intros [H|(m & Hm & Hf)]; [auto|]. right.
    apply in_flat_map in Hm as (c & Hc & Hm).
    exists c. split; [exact Hc|]. apply in_flat_map. eauto.
  - intros [H|(c & Hc & Hf)]; [auto|]. right.
    apply in_flat_map in Hf as (m & Hm & Hf).
    exists m. split; [|exact Hf]. apply in_flat_map. eauto.
Qed.

Lemma complete_covers_dates options this a' :
  Forall covers_dates (albums this) ->
  complete options this = Some a' -> covers_dates a'.
Proof.
  intros Hcs E. rewrite Forall_forall in Hcs.
  destruct (complete_fields _ _ _ E)
    as (_ & _ & _ & _ & _ & _ & _ & Est & _ & Pf & Pa & _).
  assert (Hin : forall file,
             In file (subtree_files a') <->
             In file (files this)
             \/ exists c, In c (albums this) /\ In file (subtree_files c)).
  { intros file. rewrite subtree_files_In. split.
    - intros [H|(c & Hc & H)].
      + left. exact (Permutation_in _ (Permutation_sym Pf) H).
      + right. exists c. split; [|exact H].
        exact (Permutation_in _ (Permutation_sym Pa) Hc).
    - intros [H|(c & Hc & H)].
      + left. exact (Permutation_in _ Pf H).
      + right. exists c. split; [|exact H]. exact (Permutation_in _ Pa Hc). }
  exists (stats_of this). split; [exact Est|].
  destruct (stats_of_dates this) as [-> ->].
  set (FL := Lodash.compact
               (map (fun a => st <- stats a ;; Stats.fromDate st) _ ++ _)).
  set (TL := Lodash.compact
               (map (fun a => st <- stats a ;; Stats.toDate st) _ ++ _)).
  split; [|split].
  - intros f Ef. apply min_spec in Ef as [Hf _].
    apply compact_date_In in Hf as [Hf Hf0]. split; [exact Hf0|].
    apply in_app_or in Hf as [Hf|Hf].
    + apply nested_date_In in Hf as (c & st & Hc & Es & Ef).
      destruct (Hcs c Hc) as (st' & Es' & Hfrom & _).
      rewrite Es in Es'. injection Es' as <-.
      destruct (Hfrom f Ef) as (_ & file & Hfile & Hd).
      exists file. split; [|exact Hd]. apply Hin. right. eauto.
    + apply in_map_iff in Hf as (file & Hd & Hfile).
      exists file. split; [|exact Hd]. apply Hin. left. exact Hfile.
  - intros t Et. apply max_spec in Et as [Ht _].
    apply compact_date_In in Ht as [Ht Ht0]. split; [exact Ht0|].
    apply in_app_or in Ht as [Ht|Ht].
    + apply nested_date_In in Ht as (c & st & Hc & Es & Et).
      destruct (Hcs c Hc) as (st' & Es' & _ & Hto & _).
      rewrite Es in Es'. injection Es' as <-.
      destruct (Hto t Et) as (_ & file & Hfile & Hd).
      exists file. split; [|exact Hd]. apply Hin. right. eauto.
    + apply in_map_iff in Ht as (file & Hd & Hfile).
      exists file. split; [|exact Hd]. apply Hin. left. exact Hfile.
  - intros file d Hfile Hd Hd0.
    assert (Hx : exists x y, In (Some x) FL /\ In (Some y) TL
                             /\ (x <= d <= y)%Z).
    { apply Hin in Hfile as [Hfile|(c & Hc & Hfile)].
      - exists d, d. repeat split; try lia;
          apply compact_date_In; (split; [|exact Hd0]);
          apply in_or_app; right; apply in_map_iff; eauto.
      - destruct (Hcs c Hc) as (st & Es & Hfrom & Hto & Hcover).
        destruct (Hcover file d Hfile Hd Hd0) as (f & t & Ef & Et & Hle).
        destruct (Hfrom f Ef) as [Hf0 _]. destruct (Hto t Et) as [Ht0 _].
        exists f, t. repeat split; try lia.
        + apply compact_date_In. split; [|exact Hf0].
          apply in_or_app. left. apply nested_date_In. exists c, st. auto.
        + apply compact_date_In. split; [|exact Ht0].
          apply in_or_app. left. apply nested_date_In. exists c, st. auto. }
    destruct Hx as (x & y & Hx & Hy & Hle).
    destruct (min_exists _ _ Hx) as (f & Ef & Hf).
    destruct (max_exists _ _ Hy) as (t & Et & Ht).
    exists f, t. repeat split; [exact Ef|exact Et|lia|lia].
Qed.

(** X5. The date range and the files: in the tree that [finalize]
    returns, [stats.fromDate] and [stats.toDate] of an album, when
    defined, are truthy dates of files of the tree under the album, and
    every truthy date of a file of that tree lies between them; a date 0
    or undefined is left out. *)
Theorem date_range_covers_files
        (path_join url_resolve : string -> string -> string)
        (options : option Options) (parent : option Album) (root root' : Album) :
  finalize path_join url_resolve options parent root = Some root' ->
  forall n, In n (nodes root') ->
  exists st,
    stats n = Some st /\
    (forall f, Stats.fromDate st = Some f ->
       f <> 0%Z /\
       exists file, In file (subtree_files n) /\ File.date file = Some f) /\
    (forall t, Stats.toDate st = Some t ->
       t <> 0%Z /\
       exists file, In file (subtree_files n) /\ File.date file = Some t) /\
    (forall file d,
       In file (subtree_files n) -> File.date file = Some d -> d <> 0%Z ->
       exists f t,
         Stats.fromDate st = Some f /\ Stats.toDate st = Some t /\
         (f <= d <= t)%Z).
Proof.
  intros E n Hn.
  exact (finalize_nodes path_join url_resolve options covers_dates
           complete_covers_dates parent root root' E n Hn).
Qed.

(** ** [finalize] keeps the albums and the files *)

Lemma flat_map_nested {A B C} (f : A -> list B) (g : B -> list C) (l : list A) :
  flat_map g (flat_map f l) = flat_map (fun x => flat_map g (f x)) l.
Proof.
  induction l as [|x r IH]; simpl; [reflexivity|].
  rewrite flat_map_app, IH. reflexivity.
Qed.

Lemma subtree_files_unfold (n : Album) :
  subtree_files n = files n ++ flat_map subtree_files (albums n).
Proof.
  unfold subtree_files. rewrite (nodes_unfold n). simpl.
  rewrite flat_map_nested. reflexivity.
Qed.

Lemma nodes_ids_unfold (n : Album) :
  map id (nodes n) = id n :: flat_map (fun c => map id (nodes c)) (albums n).
Proof.
  rewrite (nodes_unfold n). simpl. f_equal.
  induction (albums n) as [|c r IH]; simpl; [reflexivity|].
  rewrite map_app, IH. reflexivity.
Qed.

Lemma Forall2_flat_map_Permutation {A B} (f : A -> list B) (l l' : list A) :
  Forall2 (fun x y => Permutation (f x) (f y)) l l' ->
  Permutation (flat_map f l) (flat_map f l').
Proof.
  induction 1 as [|x y l l' Hxy _ IH]; simpl; [constructor|].
  apply Permutation_app; assumption.
Qed.

Lemma locate_id path_join url_resolve options parent a :
  id (locate path_join url_resolve options parent a) = id a.
Proof.
  unfold locate.
  destruct (titleizeAlbumNames options), parent as [p|];
    try destruct (0 <? depth p)%nat; reflexivity.
Qed.

Lemma finalize_with_keeps path_join url_resolve options parent a a' :
  finalize_with path_join url_resolve options parent a = Some a' ->
  Permutation (subtree_files a) (subtree_files a') /\
  Permutation (map id (nodes a)) (map id (nodes a')).
Proof.
  revert parent a a'.
  apply (finalize_call_ind path_join url_resolve options
           (fun _ a a' =>
              Permutation (subtree_files a) (subtree_files a') /\
              Permutation (map id (nodes a)) (map id (nodes a')))).
  intros parent a nested a' Hn E.
  destruct (complete_fields _ _ _ E)
    as (Ei & _ & _ & _ & _ & _ & _ & _ & _ & Pf & Pa & _).
  change (albums (set_albums _ nested)) with nested in Pa.
  change (files (set_albums ?this nested)) with (files this) in Pf.
  change (id (set_albums ?this nested)) with (id this) in Ei.
  rewrite locate_files in Pf. rewrite locate_id in Ei.
  split.
  - rewrite (subtree_files_unfold a), (subtree_files_unfold a').
    apply Permutation_app; [exact Pf|].
    etransitivity; [|apply Permutation_flat_map, Pa].
    apply Forall2_flat_map_Permutation.
    eapply Forall2_impl; [|exact Hn]. intros c c' (_ & H & _). exact H.
  - rewrite (nodes_ids_unfold a), (nodes_ids_unfold a'), Ei.
    constructor.
    etransitivity; [|apply Permutation_flat_map, Pa].
    apply Forall2_flat_map_Permutation.
    eapply Forall2_impl; [|exact Hn]. intros c c' (_ & _ & H). exact H.
Qed.

(** X6. [finalize] keeps the albums and the files: the tree it returns
    has the same albums, by [id], and the same files as the tree it was
    given, each as many times; only their order may differ. *)
Theorem finalize_keeps_content
        (path_join url_resolve : string -> string -> string)
        (options : option Options) (parent : option Album) (root root' : Album) :
  finalize path_join url_resolve options parent root = Some root' ->
  Permutation (subtree_files root) (subtree_files root') /\
  Permutation (map id (nodes root)) (map id (nodes root')) /\
  List.length (nodes root') = List.length (nodes root).
Proof.
  intros E. destruct (finalize_with_keeps _ _ _ _ _ _ E) as [Hf Hi].
  split; [exact Hf|]. split; [exact Hi|].
  apply Permutation_length in Hi. rewrite !length_map in Hi. auto.
Qed.

(** ** [_.orderBy] sorts, and keeps ties in place *)

Lemma Sorted_map_In {A B} (R : A -> A -> Prop) (S : B -> B -> Prop)
      (f : A -> B) (l : list A) :
  Sorted R l ->
  (forall x y, In x l -> In y l -> R x y -> S (f x) (f y)) ->
  Sorted S (map f l).
Proof.
  induction 1 as [|x l Hs IH Hh]; intros HRS; simpl; constructor.
  - apply IH. intros a b Ha Hb. apply HRS; right; assumption.
  - destruct Hh as [|y l' Hxy]; simpl; constructor.
    apply HRS; simpl; auto.
Qed.

Section OrderBySorted.
Context {A K : Type} `{JsOrd K}.

Hypothesis antisym :
  forall a b : K, compareAscending a b = CompOpp (compareAscending b a).

(** [e1] does not come after [e2]. *)
Let not_after (order : option string) (e1 e2 : Lodash.entry (A:=A) (K:=K))
  : Prop :=
  Lodash.precedes order e2 e1 = false.

Lemma precedes_asym order (e1 e2 : Lodash.entry (A:=A) (K:=K)) :
  Lodash.precedes order e1 e2 = true -> Lodash.precedes order e2 e1 = false.
Proof.
  unfold Lodash.precedes.
  rewrite (antisym (Lodash.criteria e2) (Lodash.criteria e1)).
  destruct (compareAscending (Lodash.criteria e1) (Lodash.criteria e2));
    simpl.
  - intros Hlt. apply Nat.ltb_lt in Hlt. apply Nat.ltb_ge. lia.
  - destruct order as [o|]; [|reflexivity].
    destruct (o =? "desc")%string; simpl; congruence.
  - destruct order as [o|]; [|discriminate].
    destruct (o =? "desc")%string; simpl; congruence.
Qed.

Lemma insert_entry_HdRel order (y e : Lodash.entry (A:=A) (K:=K)) l :
  HdRel (not_after order) y l -> not_after order y e ->
  HdRel (not_after order) y (Lodash.insert_entry order e l).
Proof.
  intros Hl Hye. destruct l as [|z r]; simpl.
  - constructor. exact Hye.
  - destruct (Lodash.precedes order z e); constructor.
    + inversion Hl; assumption.
    + exact Hye.
Qed.

Lemma insert_entry_Sorted order (e : Lodash.entry (A:=A) (K:=K)) l :
  Sorted (not_after order) l ->
  Sorted (not_after order) (Lodash.insert_entry order e l).
Proof.
  induction 1 as [|y r Hs IH Hh]; simpl.
  - repeat constructor.
  - destruct (Lodash.precedes order y e) eqn:Ey.
    + constructor; [exact IH|].
      apply insert_entry_HdRel; [exact Hh|].
      apply precedes_asym, Ey.
    + constructor; [constructor; assumption|].
      constructor. exact Ey.
Qed.

Lemma sort_entries_Sorted order (l : list (Lodash.entry (A:=A) (K:=K))) :
  Sorted (not_after order) (Lodash.sort_entries order l).
Proof.
  induction l as [|e r IH]; simpl; [constructor|].
  apply insert_entry_Sorted, IH.
Qed.

Lemma not_after_in_order order (e1 e2 : Lodash.entry (A:=A) (K:=K)) :
  not_after order e1 e2 ->
  in_order order (Lodash.criteria e1) (Lodash.criteria e2).
Proof.
  unfold not_after, Lodash.precedes, in_order, descending.
  rewrite (antisym (Lodash.criteria e2) (Lodash.criteria e1)).
  destruct (compareAscending (Lodash.criteria e1) (Lodash.criteria e2));
    simpl; destruct order as [o|]; try destruct (o =? "desc")%string;
    simpl; congruence.
Qed.

Lemma entries_criteria (iteratee : A -> option K) (l : list A) :
  forall i es, Lodash.entries iteratee i l = Some es ->
    Forall (fun e => iteratee (Lodash.value e) = Some (Lodash.criteria e)) es.
Proof.
  induction l as [|x r IH]; simpl; intros i es E.
  - injection E as <-. constructor.
  - destruct (iteratee x) as [k|] eqn:Ek; [|discriminate].
    destruct (Lodash.entries iteratee (S i) r) as [es'|] eqn:Er; [|discriminate].
    injection E as <-. constructor; [exact Ek|eauto].
Qed.

(** The collection that [_.orderBy] returns is in the order asked for. *)
Lemma orderBy_Sorted (l l' : list A) (iteratee : A -> option K) order :
  Lodash.orderBy l iteratee order = Some l' ->
  Sorted (fun x y => forall kx ky,
                     iteratee x = Some kx -> iteratee y = Some ky ->
                     in_order order kx ky) l'.
Proof.
  unfold Lodash.orderBy.
  destruct (Lodash.entries iteratee 0 l) as [es|] eqn:E; [|discriminate].
  intros [= <-].
  apply (Sorted_map_In (not_after order)); [apply sort_entries_Sorted|].
  pose proof (entries_criteria _ _ _ _ E) as Hc.
  rewrite Forall_forall in Hc.
  assert (Hin : forall e, In e (Lodash.sort_entries order es) -> In e es).
  { intros e. apply Permutation_in, Permutation_sym, sort_entries_Permutation. }
  intros e1 e2 H1 H2 Hna kx ky Ex Ey.
  rewrite (Hc e1 (Hin _ H1)) in Ex. rewrite (Hc e2 (Hin _ H2)) in Ey.
  injection Ex as <-. injection Ey as <-.
  apply not_after_in_order, Hna.
Qed.

End OrderBySorted.

Lemma filter_map_value {A B} (f : A -> B) (P : B -> bool) (l : list A) :
  filter P (map f l) = map f (filter (fun x => P (f x)) l).
Proof.
  induction l as [|x r IH]; simpl; [reflexivity|].
  destruct (P (f x)); simpl; rewrite IH; reflexivity.
Qed.

Lemma filter_all {A} (l : list A) : filter (fun _ => true) l = l.
Proof. induction l; simpl; congruence. Qed.

Section OrderByStable.
Context {A K : Type} `{JsOrd K}.

Hypothesis antisym :
  forall a b : K, compareAscending a b = CompOpp (compareAscending b a).

Variable iteratee : A -> option K.

(** A class of elements that have the same criterion. *)
Variable P : A -> bool.
Hypothesis same_criterion :
  forall x y kx ky,
    P x = true -> P y = true ->
    iteratee x = Some kx -> iteratee y = Some ky -> kx = ky.

Let agrees (e : Lodash.entry (A:=A) (K:=K)) : Prop :=
  iteratee (Lodash.value e) = Some (Lodash.criteria e).

Let Pe (e : Lodash.entry (A:=A) (K:=K)) : bool := P (Lodash.value e).

Lemma compareAscending_refl (k : K) : compareAscending k k = Eq.
Proof.
  pose proof (antisym k k) as E.
  destruct (compareAscending k k); simpl in E; congruence.
Qed.

Lemma insert_entry_filter order (e : Lodash.entry (A:=A) (K:=K)) l :
  agrees e -> Forall agrees l ->
  Forall (fun y => Lodash.position e < Lodash.position y) l ->
  filter Pe (Lodash.insert_entry order e l) = filter Pe (e :: l).
Proof.
  intros He Hl Hpos. induction l as [|y r IH]; [reflexivity|].
  inversion Hl as [|? ? Hy Hr]; subst. inversion Hpos as [|? ? Py Pr]; subst.
  simpl Lodash.insert_entry.
  destruct (Lodash.precedes order y e) eqn:Ey; [|reflexivity].
  simpl filter at 1. rewrite (IH Hr Pr). simpl.
  destruct (Pe y) eqn:Qy, (Pe e) eqn:Qe; try reflexivity.
  exfalso. unfold Lodash.precedes in Ey.
  rewrite (same_criterion _ _ _ _ Qy Qe Hy He), compareAscending_refl in Ey.
  apply Nat.ltb_lt in Ey. lia.
Qed.

Lemma sort_entries_filter order (l : list (Lodash.entry (A:=A) (K:=K))) :
  Forall agrees l ->
  StronglySorted (fun e1 e2 => Lodash.position e1 < Lodash.position e2) l ->
  filter Pe (Lodash.sort_entries order l) = filter Pe l.
Proof.
  intros Hl Hs. induction Hs as [|e r Hs IH Hpos]; [reflexivity|].
  inversion Hl as [|? ? He Hr]; subst. simpl Lodash.sort_entries.
  rewrite insert_entry_filter.
  - simpl. rewrite (IH Hr). reflexivity.
  - exact He.
  - eapply Permutation_Forall; [apply sort_entries_Permutation|exact Hr].
  - eapply Permutation_Forall; [apply sort_entries_Permutation|exact Hpos].
Qed.

Lemma entries_positions (l : list A) :
  forall i es, Lodash.entries iteratee i l = Some es ->
    Forall (fun e => i <= Lodash.position e) es /\
    StronglySorted (fun e1 e2 => Lodash.position e1 < Lodash.position e2) es.
Proof.
  induction l as [|x r IH]; simpl; intros i es E.
  - injection E as <-. split; constructor.
  - destruct (iteratee x) as [k|]; [|discriminate].
    destruct (Lodash.entries iteratee (S i) r) as [es'|] eqn:Er; [|discriminate].
    injection E as <-. destruct (IH _ _ Er) as [Hge Hs]. split.
    + constructor; [simpl; lia|].
      eapply Forall_impl; [|exact Hge]. simpl. intros; lia.
    + constructor; [exact Hs|].
      eapply Forall_impl; [|exact Hge]. simpl. intros; lia.
Qed.

(** [_.orderBy] is stable: elements with the same criterion stay in the
    order they had. *)
Lemma orderBy_stable (l l' : list A) order :
  Lodash.orderBy l iteratee order = Some l' -> filter P l' = filter P l.
Proof.
  unfold Lodash.orderBy.
  destruct (Lodash.entries iteratee 0 l) as [es|] eqn:E; [|discriminate].
  intros [= <-].
  rewrite <- (entries_value _ _ _ _ E).
  rewrite !filter_map_value. f_equal.
  apply sort_entries_filter.
  - exact (entries_criteria _ _ _ _ E).
  - apply (entries_positions _ _ _ E).
Qed.

End OrderByStable.

Lemma orderBy_same_criterion {A K} `{JsOrd K} (l l' : list A)
      (iteratee : A -> option K) order :
  (forall a b : K, compareAscending a b = CompOpp (compareAscending b a)) ->
  (forall x y kx ky,
      iteratee x = Some kx -> iteratee y = Some ky -> kx = ky) ->
  Lodash.orderBy l iteratee order = Some l' -> l' = l.
Proof.
  intros antisym Hsame E.
  rewrite <- (filter_all l'), <- (filter_all l).
  apply (orderBy_stable antisym iteratee (fun _ => true)) with (order := order).
  - intros x y kx ky _ _. apply Hsame.
  - exact E.
Qed.

(** The orders of the criteria are antisymmetric. *)
Lemma JsOrd_string_antisym (a b : string) :
  compareAscending a b = CompOpp (compareAscending b a).
Proof. apply String.compare_antisym. Qed.

Lemma JsOrd_date_antisym (a b : option Z) :
  compareAscending a b = CompOpp (compareAscending b a).
Proof.
  destruct a as [x|], b as [y|]; try reflexivity.
  apply Z.compare_antisym.
Qed.

Lemma JsOrd_object_antisym (a b : unit) :
  compareAscending a b = CompOpp (compareAscending b a).
Proof. reflexivity. Qed.

(** ** The order of the files and of the albums after [finalize] *)

Lemma Sorted_weaken_In {A} (R S : A -> A -> Prop) (l : list A) :
  Sorted R l ->
  (forall x y, In x l -> In y l -> R x y -> S x y) ->
  Sorted S l.
Proof.
  intros Hs HRS. rewrite <- (map_id l).
  apply (Sorted_map_In R S (fun x => x)); assumption.
Qed.

Lemma complete_files_orderBy options this a' :
  complete options this = Some a' ->
  orderBy_with (files this) (lookup SORT_MEDIA_BY (sortMediaBy options))
               (sortMediaDirection options) = Some (files a').
Proof.
  intros E. apply complete_inv in E as (fs & als & Efs & _ & ->). exact Efs.
Qed.

Lemma complete_albums_orderBy options this a' :
  sortAlmbumsNumbersFirst options = false ->
  complete options this = Some a' ->
  orderBy_with (albums this) (lookup SORT_ALBUMS_BY (sortAlbumsBy options))
               (sortAlbumsDirection options) = Some (albums a').
Proof.
  intros Hnf E. apply complete_inv in E as (fs & als & _ & Eals & ->).
  rewrite Hnf. exact Eals.
Qed.

Lemma in_order_string_leb order (a b : string) :
  in_order order a b ->
  if descending order then (b <=? a)%string = true
  else (a <=? b)%string = true.
Proof.
  unfold in_order, String.leb.
  change (compareAscending a b) with (String.compare a b).
  rewrite (String.compare_antisym a b).
  destruct (descending order), (String.compare b a); simpl; congruence.
Qed.

Lemma in_order_date_le order (a b : option Z) :
  in_order order a b ->
  if descending order then date_le b a else date_le a b.
Proof.
  unfold in_order, date_le.
  destruct a as [x|], b as [y|];
    change (compareAscending (Some x) (Some y)) with (Z.compare x y) ||
    change (compareAscending (Some x) (@None Z)) with Lt ||
    change (compareAscending (@None Z) (Some y)) with Gt ||
    change (compareAscending (@None Z) (@None Z)) with Eq;
    destruct (descending order); try congruence; try exact (fun _ => I);
    intros Hc; destruct (Z.compare_spec x y); try lia; congruence.
Qed.

Lemma complete_files_by_filename options this a' :
  sortMediaBy options = Some "filename" ->
  Forall (files_by_filename options) (albums this) ->
  complete options this = Some a' -> files_by_filename options a'.
Proof.
  intros Hby _ E. apply complete_files_orderBy in E. rewrite Hby in E.
  change (Lodash.orderBy (files this) (fun file => Some (File.filename file))
            (sortMediaDirection options) = Some (files a')) in E.
  apply (orderBy_Sorted JsOrd_string_antisym) in E.
  unfold files_by_filename.
  pose proof (in_order_string_leb (sortMediaDirection options)) as Hle.
  destruct (descending (sortMediaDirection options));
    (eapply Sorted_weaken_In; [exact E|]);
    intros f g _ _ H; exact (Hle _ _ (H _ _ eq_refl eq_refl)).
Qed.

Lemma complete_files_by_date options this a' :
  sortMediaBy options = Some "date" ->
  Forall (files_by_date options) (albums this) ->
  complete options this = Some a' -> files_by_date options a'.
Proof.
  intros Hby _ E. apply complete_files_orderBy in E. rewrite Hby in E.
  change (Lodash.orderBy (files this) (fun file => Some (File.date file))
            (sortMediaDirection options) = Some (files a')) in E.
  apply (orderBy_Sorted JsOrd_date_antisym) in E.
  unfold files_by_date.
  pose proof (in_order_date_le (sortMediaDirection options)) as Hle.
  destruct (descending (sortMediaDirection options));
    (eapply Sorted_weaken_In; [exact E|]);
    intros f g _ _ H; exact (Hle _ _ (H _ _ eq_refl eq_refl)).
Qed.

(** X7. The files in the order of their names: with
    [sortMediaBy = 'filename'], in the tree that [finalize] returns the
    files of every album are in the order of their file names, the order
    of the character codes: ascending, or descending when
    [sortMediaDirection] is ['desc']. *)
Theorem files_sorted_by_filename
        (path_join url_resolve : string -> string -> string)
        (options : option Options) (parent : option Album) (root root' : Album) :
  sortMediaBy (defaulted options) = Some "filename" ->
  finalize path_join url_resolve options parent root = Some root' ->
  forall n, In n (nodes root') ->
    if descending (sortMediaDirection (defaulted options))
    then Sorted (fun f g => (File.filename g <=? File.filename f)%string = true)
                (files n)
    else Sorted (fun f g => (File.filename f <=? File.filename g)%string = true)
                (files n).
Proof.
  intros Hby E. apply Forall_forall.
  exact (finalize_with_nodes path_join url_resolve (defaulted options)
           (files_by_filename (defaulted options))
           (fun this a' => complete_files_by_filename (defaulted options) this a' Hby)
           parent root root' E).
Qed.

(** X8. The files in the order of their dates: with
    [sortMediaBy = 'date'], in the tree that [finalize] returns the files
    of every album are in the order of their dates, the files without a
    date last: ascending, or descending (the files without a date first)
    when [sortMediaDirection] is ['desc']. *)
Theorem files_sorted_by_date
        (path_join url_resolve : string -> string -> string)
        (options : option Options) (parent : option Album) (root root' : Album) :
  sortMediaBy (defaulted options) = Some "date" ->
  finalize path_join url_resolve options parent root = Some root' ->
  forall n, In n (nodes root') ->
    if descending (sortMediaDirection (defaulted options))
    then Sorted (fun f g => date_le (File.date g) (File.date f)) (files n)
    else Sorted (fun f g => date_le (File.date f) (File.date g)) (files n).
Proof.
  intros Hby E. apply Forall_forall.
  exact (finalize_with_nodes path_join url_resolve (defaulted options)
           (files_by_date (defaulted options))
           (fun this a' => complete_files_by_date (defaulted options) this a' Hby)
           parent root root' E).
Qed.

Lemma complete_albums_by_title options this a' :
  sortAlbumsBy options = Some "title" ->
  sortAlmbumsNumbersFirst options = false ->
  Forall (albums_by_title options) (albums this) ->
  complete options this = Some a' -> albums_by_title options a'.
Proof.
  intros Hby Hnf _ E. apply (complete_albums_orderBy _ _ _ Hnf) in E.
  rewrite Hby in E.
  change (Lodash.orderBy (albums this) (fun album => Some (title album))
            (sortAlbumsDirection options) = Some (albums a')) in E.
  apply (orderBy_Sorted JsOrd_string_antisym) in E.
  unfold albums_by_title.
  pose proof (in_order_string_leb (sortAlbumsDirection options)) as Hle.
  destruct (descending (sortAlbumsDirection options));
    (eapply Sorted_weaken_In; [exact E|]);
    intros f g _ _ H; exact (Hle _ _ (H _ _ eq_refl eq_refl)).
Qed.

Lemma complete_albums_by_date (field : Stats.t -> option Z) options this a' :
  orderBy_with (albums this) (lookup SORT_ALBUMS_BY (sortAlbumsBy options))
               (sortAlbumsDirection options)
  = Lodash.orderBy (albums this)
      (fun album => st <- stats album ;; Some (field st))
      (sortAlbumsDirection options) ->
  sortAlmbumsNumbersFirst options = false ->
  Forall (albums_by_date (fun a => st <- stats a ;; field st) options)
         (albums this) ->
  complete options this = Some a' ->
  albums_by_date (fun a => st <- stats a ;; field st) options a'.
Proof.
  intros Hby Hnf Hcs E.
  destruct (complete_fields _ _ _ E)
    as (_ & _ & _ & _ & _ & _ & _ & Est & _ & _ & Pa & _).
  apply (complete_albums_orderBy _ _ _ Hnf) in E. rewrite Hby in E.
  apply (orderBy_Sorted JsOrd_date_antisym) in E.
  split; [rewrite Est; discriminate|].
  assert (Hst : forall c, In c (albums a') -> exists st, stats c = Some st).
  { intros c Hc. apply (Permutation_in _ (Permutation_sym Pa)) in Hc.
    rewrite Forall_forall in Hcs. destruct (Hcs c Hc) as [Hs _].
    destruct (stats c) as [st|]; [eauto|congruence]. }
  pose proof (in_order_date_le (sortAlbumsDirection options)) as Hle.
  destruct (descending (sortAlbumsDirection options));
    (eapply Sorted_weaken_In; [exact E|]);
    intros a b Ha Hb H;
    destruct (Hst a Ha) as [sa Ea]; destruct (Hst b Hb) as [sb Eb];
    cbv beta in H |- *; rewrite Ea in H |- *; rewrite Eb in H |- *;
    simpl in H |- *;
    exact (Hle _ _ (H _ _ eq_refl eq_refl)).
Qed.

(** X9. The albums in the order of their titles: with
    [sortAlbumsBy = 'title'] and [sortAlmbumsNumbersFirst] off, in the
    tree that [finalize] returns the albums that an album holds are in
    the order of their titles, the order of the character codes:
    ascending, or descending when [sortAlbumsDirection] is ['desc']. *)
Theorem albums_sorted_by_title
        (path_join url_resolve : string -> string -> string)
        (options : option Options) (parent : option Album) (root root' : Album) :
  sortAlbumsBy (defaulted options) = Some "title" ->
  sortAlmbumsNumbersFirst (defaulted options) = false ->
  finalize path_join url_resolve options parent root = Some root' ->
  forall n, In n (nodes root') ->
    if descending (sortAlbumsDirection (defaulted options))
    then Sorted (fun a b => (title b <=? title a)%string = true) (albums n)
    else Sorted (fun a b => (title a <=? title b)%string = true) (albums n).
Proof.
  intros Hby Hnf E. apply Forall_forall.
  exact (finalize_with_nodes path_join url_resolve (defaulted options)
           (albums_by_title (defaulted options))
           (fun this a' =>
              complete_albums_by_title (defaulted options) this a' Hby Hnf)
           parent root root' E).
Qed.

(** X10. The albums in the order of their dates: with
    [sortAlbumsBy = 'start-date'] (or ['end-date']) and
    [sortAlmbumsNumbersFirst] off, in the tree that [finalize] returns
    the albums that an album holds are in the order of their
    [stats.fromDate] (or [stats.toDate]), the albums without a date last:
    ascending, or descending (the albums without a date first) when
    [sortAlbumsDirection] is ['desc']. *)
Theorem albums_sorted_by_date
        (path_join url_resolve : string -> string -> string)
        (options : option Options) (parent : option Album) (root root' : Album) :
  sortAlmbumsNumbersFirst (defaulted options) = false ->
  finalize path_join url_resolve options parent root = Some root' ->
  (sortAlbumsBy (defaulted options) = Some "start-date" ->
   forall n, In n (nodes root') ->
     if descending (sortAlbumsDirection (defaulted options))
     then Sorted (fun a b => date_le (start_date b) (start_date a)) (albums n)
     else Sorted (fun a b => date_le (start_date a) (start_date b)) (albums n))
  /\
  (sortAlbumsBy (defaulted options) = Some "end-date" ->
   forall n, In n (nodes root') ->
     if descending (sortAlbumsDirection (defaulted options))
     then Sorted (fun a b => date_le (end_date b) (end_date a)) (albums n)
     else Sorted (fun a b => date_le (end_date a) (end_date b)) (albums n)).
Proof.
  intros Hnf E. split; intros Hby n Hn.
  - assert (W : Forall (albums_by_date start_date (defaulted options))
                       (nodes root')).
    { apply (finalize_with_nodes path_join url_resolve (defaulted options)
               (albums_by_date start_date (defaulted options))) with
          (parent := parent) (a := root); [|exact E].
      intros this a'.
      apply (complete_albums_by_date Stats.fromDate); [|exact Hnf].
      rewrite Hby. reflexivity. }
    rewrite Forall_forall in W. apply (W n Hn).
  - assert (W : Forall (albums_by_date end_date (defaulted options))
                       (nodes root')).
    { apply (finalize_with_nodes path_join url_resolve (defaulted options)
               (albums_by_date end_date (defaulted options))) with
          (parent := parent) (a := root); [|exact E].
      intros this a'.
      apply (complete_albums_by_date Stats.toDate); [|exact Hnf].
      rewrite Hby. reflexivity. }
    rewrite Forall_forall in W. apply (W n Hn).
Qed.

Lemma finalize_with_files_orderBy path_join url_resolve options parent a a' :
  finalize_with path_join url_resolve options parent a = Some a' ->
  orderBy_with (files a) (lookup SORT_MEDIA_BY (sortMediaBy options))
               (sortMediaDirection options) = Some (files a').
Proof.
  intros E. rewrite finalize_with_unfold in E.
  apply bind_Some in E as (nested & _ & E).
  apply complete_files_orderBy in E.
  change (files (set_albums ?this nested)) with (files this) in E.
  rewrite locate_files in E. exact E.
Qed.

Lemma finalize_with_albums_orderBy path_join url_resolve options parent a a' :
  sortAlmbumsNumbersFirst options = false ->
  finalize_with path_join url_resolve options parent a = Some a' ->
  exists nested,
    Forall2 (fun c c' =>
               finalize_with path_join url_resolve options
                 (Some (locate path_join url_resolve options parent a)) c
               = Some c') (albums a) nested /\
    orderBy_with nested (lookup SORT_ALBUMS_BY (sortAlbumsBy options))
                 (sortAlbumsDirection options) = Some (albums a').
Proof.
  intros Hnf E. rewrite finalize_with_unfold in E.
  apply bind_Some in E as (nested & En & E).
  apply (complete_albums_orderBy _ _ _ Hnf) in E.
  exists nested. split; [apply mapM_Forall2, En|exact E].
Qed.

Lemma finalize_defaulted path_join url_resolve options parent a :
  finalize path_join url_resolve options parent a
  = finalize_with path_join url_resolve (defaulted options) parent a.
Proof. reflexivity. Qed.

Lemma unknown_media_key_lookup (key : option string) :
  unknown_media_key key -> lookup SORT_MEDIA_BY key = None.
Proof.
  intros Hk. destruct key as [k|]; [|reflexivity].
  destruct (Hk k eq_refl) as [H1 H2].
  apply String.eqb_neq in H1, H2.
  unfold lookup, SORT_MEDIA_BY. rewrite H1, H2. reflexivity.
Qed.

Lemma unknown_albums_key_lookup (key : option string) :
  unknown_albums_key key -> lookup SORT_ALBUMS_BY key = None.
Proof.
  intros Hk. destruct key as [k|]; [|reflexivity].
  destruct (Hk k eq_refl) as (H1 & H2 & H3).
  apply String.eqb_neq in H1, H2, H3.
  unfold lookup, SORT_ALBUMS_BY. rewrite H1, H2, H3. reflexivity.
Qed.

(** X11. The sort keeps ties in place: [finalize] leaves the files of an
    album that have the same file name (with [sortMediaBy = 'filename'])
    or the same date (with [sortMediaBy = 'date']) in the order they had,
    whatever [sortMediaDirection] is, ['desc'] included. *)
Theorem sort_keeps_ties
        (path_join url_resolve : string -> string -> string)
        (options : option Options) (parent : option Album) (a a' : Album) :
  finalize path_join url_resolve options parent a = Some a' ->
  (sortMediaBy (defaulted options) = Some "filename" ->
   forall P : File.t -> bool,
     (forall f g, P f = true -> P g = true ->
                  File.filename f = File.filename g) ->
     filter P (files a') = filter P (files a)) /\
  (sortMediaBy (defaulted options) = Some "date" ->
   forall P : File.t -> bool,
     (forall f g, P f = true -> P g = true -> File.date f = File.date g) ->
     filter P (files a') = filter P (files a)).
Proof.
  intros E. rewrite finalize_defaulted in E.
  apply finalize_with_files_orderBy in E.
  split; intros Hby P HP; rewrite Hby in E.
  - apply (orderBy_stable JsOrd_string_antisym
             (fun file => Some (File.filename file)) P)
      with (order := sortMediaDirection (defaulted options)); [|exact E].
    intros f g kf kg Hf Hg [= <-] [= <-]. apply HP; assumption.
  - apply (orderBy_stable JsOrd_date_antisym
             (fun file => Some (File.date file)) P)
      with (order := sortMediaDirection (defaulted options)); [|exact E].
    intros f g kf kg Hf Hg [= <-] [= <-]. apply HP; assumption.
Qed.

(** X12. A sort key that names no entry of the table (and no inherited
    name): when [sortMediaBy] is absent or is neither ['filename'] nor
    ['date'], [finalize] leaves the files of an album in the order they
    had; when [sortAlbumsBy] is absent or is none of ['title'],
    ['start-date'] and ['end-date'], and [sortAlmbumsNumbersFirst] is
    off, it leaves the nested albums in the order they had. *)
Theorem unknown_sort_key_keeps_order
        (path_join url_resolve : string -> string -> string)
        (options : option Options) (parent : option Album) (a a' : Album) :
  finalize path_join url_resolve options parent a = Some a' ->
  (unknown_media_key (sortMediaBy (defaulted options)) ->
   plain_key (sortMediaBy (defaulted options)) ->
   files a' = files a) /\
  (unknown_albums_key (sortAlbumsBy (defaulted options)) ->
   plain_key (sortAlbumsBy (defaulted options)) ->
   sortAlmbumsNumbersFirst (defaulted options) = false ->
   exists p,
     Forall2 (fun c c' =>
                finalize path_join url_resolve options (Some p) c = Some c')
             (albums a) (albums a')).
Proof.
  intros E. rewrite finalize_defaulted in E. split.
  - intros Hk _. apply finalize_with_files_orderBy in E.
    rewrite (unknown_media_key_lookup _ Hk) in E.
    apply (orderBy_same_criterion _ _ _ _ JsOrd_object_antisym) in E;
      [exact E|].
    intros x y [] [] _ _. reflexivity.
  - intros Hk _ Hnf.
    destruct (finalize_with_albums_orderBy _ _ _ _ _ _ Hnf E)
      as (nested & Hn & Eo).
    rewrite (unknown_albums_key_lookup _ Hk) in Eo.
    apply (orderBy_same_criterion _ _ _ _ JsOrd_object_antisym) in Eo.
    + rewrite Eo. eexists. exact Hn.
    + intros x y [] [] _ _. reflexivity.
Qed.

(** ** Where the previews come from *)

Lemma In_firstn {A} (k : nat) (l : list A) (x : A) :
  In x (firstn k l) -> In x l.
Proof.
  revert l. induction k as [|k IH]; intros [|y r]; simpl; try tauto.
  intros [->|H]; auto.
Qed.

Lemma complete_previews_from_subtree options this a' :
  Forall previews_from_subtree (albums this) ->
  complete options this = Some a' -> previews_from_subtree a'.
Proof.
  intros Hcs E. rewrite Forall_forall in Hcs.
  destruct (complete_fields _ _ _ E)
    as (_ & _ & _ & _ & _ & _ & _ & _ & _ & _ & Pa & _).
  eexists. split; [exact (complete_previews _ _ _ E)|].
  intros p Hp. apply in_app_or in Hp as [Hp|Hp].
  - apply In_firstn in Hp. apply in_app_or in Hp as [Hp|Hp].
    + apply in_map_iff in Hp as (f & <- & Hf). right.
      exists f. split; [reflexivity|]. apply subtree_files_In. auto.
    + unfold inherited, nested_previews in Hp.
      apply filter_In in Hp as [Hp _].
      apply in_flat_map in Hp as (c & Hc & Hp).
      destruct (Hcs c (Permutation_in _ (Permutation_sym Pa) Hc))
        as (l & El & Hl).
      rewrite El in Hp. destruct (Hl p Hp) as [->|(f & -> & Hf)]; [auto|].
      right. exists f. split; [reflexivity|].
      apply subtree_files_In. right. eauto.
  - left. exact (repeat_spec _ _ _ Hp).
Qed.

(** X13. Where the previews come from: in the tree that [finalize]
    returns, every entry of the [previews] of an album is the placeholder
    or a file of the tree under that album (its own files and those of the
    albums nested in it, at any depth); [null] is no entry. *)
Theorem previews_come_from_subtree
        (path_join url_resolve : string -> string -> string)
        (options : option Options) (parent : option Album) (root root' : Album) :
  finalize path_join url_resolve options parent root = Some root' ->
  forall n, In n (nodes root') ->
  exists l,
    previews n = Some l /\
    forall p, In p l ->
      p = PREVIEW_MISSING \/
      exists f, p = Media f /\ In f (subtree_files n).
Proof.
  intros E n Hn.
  exact (finalize_nodes path_join url_resolve options previews_from_subtree
           complete_previews_from_subtree parent root root' E n Hn).
Qed.

Lemma min_sum_min (k : nat) (l : list nat) :
  forall a,
    Nat.min k (a + list_sum (map (Nat.min k) l)) = Nat.min k (a + list_sum l).
Proof.
  induction l as [|x r IH]; intros a; simpl; [reflexivity|].
  rewrite !Nat.add_assoc, IH.
  specialize (IH (a + x)). lia.
Qed.

Lemma filter_media (reals : list File.t) (k : nat) :
  filter (fun file => negb (is_missing file))
         (map Media reals ++ repeat PREVIEW_MISSING k)
  = map Media reals.
Proof.
  rewrite filter_app.
  assert (Hm : filter (fun file => negb (is_missing file)) (map Media reals)
               = map Media reals).
  { induction reals; simpl; congruence. }
  assert (Hr : filter (fun file => negb (is_missing file))
                      (repeat PREVIEW_MISSING k) = []).
  { induction k; simpl; auto. }
  rewrite Hm, Hr. apply app_nil_r.
Qed.

Lemma inherited_filled (cs : list Album) :
  Forall previews_filled cs ->
  exists rs,
    inherited cs = map Media rs /\
    List.length rs
    = list_sum (map (Nat.min PREVIEW_COUNT)
                    (map (fun c => List.length (subtree_files c)) cs)).
Proof.
  unfold inherited, nested_previews.
  induction 1 as [|c cs (reals & Ep & El) _ (rs & IH & IHl)]; simpl.
  - exists []. split; reflexivity.
  - exists (reals ++ rs).
    rewrite filter_app, IH, Ep, filter_media, map_app, length_app, El, IHl.
    split; reflexivity.
Qed.

Lemma complete_previews_filled options this a' :
  Forall previews_filled (albums this) ->
  complete options this = Some a' -> previews_filled a'.
Proof.
  intros Hcs E.
  destruct (complete_fields _ _ _ E)
    as (_ & _ & _ & _ & _ & _ & _ & _ & _ & _ & Pa & _).
  destruct (inherited_filled (albums a')) as (rs & Hrs & Hlen).
  { eapply Permutation_Forall; [exact Pa|exact Hcs]. }
  exists (firstn PREVIEW_COUNT (files a' ++ rs)). split.
  - rewrite (complete_previews _ _ _ E), Hrs.
    rewrite <- map_app, firstn_map, length_map. reflexivity.
  - rewrite length_firstn, length_app, Hlen, min_sum_min.
    rewrite (subtree_files_unfold a'), length_app, length_flat_map.
    reflexivity.
Qed.

(** X14. How many previews are files: in the tree that [finalize]
    returns, the [previews] of an album are files, as many as the tree
    under the album has but [PREVIEW_COUNT] at most, followed by
    placeholders; so an album shows a placeholder only when the tree
    under it has fewer than [PREVIEW_COUNT] files. *)
Theorem previews_filled_from_subtree
        (path_join url_resolve : string -> string -> string)
        (options : option Options) (parent : option Album) (root root' : Album) :
  finalize path_join url_resolve options parent root = Some root' ->
  forall n, In n (nodes root') ->
  exists reals : list File.t,
    previews n
    = Some (map Media reals
            ++ repeat PREVIEW_MISSING (PREVIEW_COUNT - List.length reals)) /\
    List.length reals
    = Nat.min PREVIEW_COUNT (List.length (subtree_files n)).
Proof.
  intros E n Hn.
  exact (finalize_nodes path_join url_resolve options previews_filled
           complete_previews_filled parent root root' E n Hn).
Qed.

Lemma firstn_own_first {A} (k : nat) :
  forall own others rest : list A,
    firstn (Nat.min k (List.length own)) (firstn k (own ++ others) ++ rest)
    = firstn k own.
Proof.
  induction k as [|k IH]; intros own others rest; [reflexivity|].
  destruct own as [|x own]; [reflexivity|].
  simpl. f_equal. apply IH.
Qed.

Lemma complete_own_files_first options this a' :
  Forall own_files_first (albums this) ->
  complete options this = Some a' -> own_files_first a'.
Proof.
  intros _ E. eexists. split; [exact (complete_previews _ _ _ E)|].
  rewrite <- (length_map Media), firstn_own_first, firstn_map. reflexivity.
Qed.

(** X15. The album's own files come first: in the tree that [finalize]
    returns, the [previews] of an album start with its own files, in the
    order [sort] left them, up to [PREVIEW_COUNT] of them; the previews
    of the nested albums only fill what is left. *)
Theorem previews_own_files_first
        (path_join url_resolve : string -> string -> string)
        (options : option Options) (parent : option Album) (root root' : Album) :
  finalize path_join url_resolve options parent root = Some root' ->
  forall n, In n (nodes root') ->
  exists l,
    previews n = Some l /\
    firstn (Nat.min PREVIEW_COUNT (List.length (files n))) l
    = map Media (firstn PREVIEW_COUNT (files n)).
Proof.
  intros E n Hn.
  exact (finalize_nodes path_join url_resolve options own_files_first
           complete_own_files_first parent root root' E n Hn).
Qed.

(** ** [sanitise] *)

Lemma sfilter_idempotent (p : ascii -> bool) (s : string) :
  sfilter p (sfilter p s) = sfilter p s.
Proof.
  induction s as [|c r IH]; simpl; [reflexivity|].
  destruct (p c) eqn:Ec; simpl; [rewrite Ec, IH|]; auto.
Qed.

Lemma sfilter_append (p : ascii -> bool) (a b : string) :
  sfilter p (a ++ b) = (sfilter p a ++ sfilter p b)%string.
Proof.
  induction a as [|c r IH]; simpl; [reflexivity|].
  destruct (p c); simpl; rewrite IH; reflexivity.
Qed.

Lemma sfilter_length (p : ascii -> bool) (s : string) :
  String.length (sfilter p s) <= String.length s.
Proof.
  induction s as [|c r IH]; simpl; [lia|].
  destruct (p c); simpl; lia.
Qed.

Lemma sfilter_fixed (p : ascii -> bool) (s : string) :
  sfilter p s = s <-> sforallb p s = true.
Proof.
  split.
  - intros E. rewrite <- E. apply sfilter_sforallb.
  - induction s as [|c r IH]; simpl; [reflexivity|].
    intros H. apply andb_prop in H as [Hc Hr].
    rewrite Hc, (IH Hr). reflexivity.
Qed.

(** X16. [sanitise] cleans once and for all: sanitising what was
    sanitised changes nothing, a string is left as it is exactly when it
    has letters, digits, hyphens and underscores only, and sanitising two
    strings put together is putting together what sanitising each gives,
    so that the prefix that [finalize] adds to a basename needs no new
    cleaning. *)
Theorem sanitise_once :
  (forall s, sanitise (sanitise s) = sanitise s) /\
  (forall s, sanitise s = s <-> sforallb allowed_char s = true) /\
  (forall a b, sanitise (a ++ b) = (sanitise a ++ sanitise b)%string) /\
  (forall a b, sanitise (sanitise a ++ "-" ++ sanitise b)
               = (sanitise a ++ "-" ++ sanitise b)%string).
Proof.
  unfold sanitise. split; [|split; [|split]].
  - intros s. apply sfilter_idempotent.
  - intros s. rewrite sfilter_fixed.
    rewrite (sforallb_ext basename_char allowed_char s basename_char_allowed).
    reflexivity.
  - intros a b. apply sfilter_append.
  - intros a b. rewrite !sfilter_append, !sfilter_idempotent. reflexivity.
Qed.

(** ** The constructor: identifiers and default names *)

Lemma new_Album_id (opts : AlbumArg) (index : nat) :
  (forall i, arg_id opts = Some i -> i <> 0 ->
             id (fst (new_Album opts index)) = i
             /\ snd (new_Album opts index) = index) /\
  (arg_id opts = None \/ arg_id opts = Some 0 ->
   id (fst (new_Album opts index)) = S index
   /\ snd (new_Album opts index) = S index).
Proof.
  unfold new_Album, arg_id. destruct opts as [s|o]; simpl.
  - split; [discriminate|auto].
  - destruct (opts_id o) as [[|i]|]; simpl; split;
      try (intros j [= <-] Hj); try (intros [[=]|[=]]); auto; congruence.
Qed.

(** X17. Identifiers: an album constructed with an [id] other than 0
    keeps it and leaves the counter alone.  Albums constructed one after
    the other without an [id] (or with 0) get the next values of the
    counter, consecutive and all different; after [Album.resetIds()] they
    start at 1 again. *)
Theorem constructor_identifiers :
  (forall opts index i,
      arg_id opts = Some i -> i <> 0 ->
      id (fst (new_Album opts index)) = i
      /\ snd (new_Album opts index) = index) /\
  (forall l index,
      Forall (fun opts => arg_id opts = None \/ arg_id opts = Some 0) l ->
      map id (fst (new_Albums l index)) = seq (S index) (List.length l) /\
      snd (new_Albums l index) = index + List.length l /\
      NoDup (map id (fst (new_Albums l index))) /\
      map id (fst (new_Albums l (resetIds index))) = seq 1 (List.length l)).
Proof.
  split.
  - intros opts index. apply new_Album_id.
  - intros l index Hl.
    assert (H : forall index,
               map id (fst (new_Albums l index)) = seq (S index) (List.length l)
               /\ snd (new_Albums l index) = index + List.length l).
    { clear index.
      induction Hl as [|opts r Ho _ IH]; intros index; simpl.
      - split; [reflexivity|lia].
      - destruct (proj2 (new_Album_id opts index) Ho) as [Ei En].
        destruct (new_Album opts index) as [a i]. simpl in Ei, En. subst i.
        destruct (IH (S index)) as [IHm IHn].
        destruct (new_Albums r (S index)) as [rest j]. simpl in *.
        rewrite Ei, IHm, IHn. split; [reflexivity|lia]. }
    destruct (H index) as [Hm Hn]. split; [exact Hm|]. split; [exact Hn|].
    split; [rewrite Hm; apply seq_NoDup|].
    apply (H (resetIds index)).
Qed.

Lemma sanitise_string_of_uint (u : Decimal.uint) :
  sanitise (NilEmpty.string_of_uint u) = NilEmpty.string_of_uint u.
Proof.
  unfold sanitise. induction u; simpl; try rewrite IHu; reflexivity.
Qed.

(** X18. Default names: an album constructed without a title, or with an
    empty one, is titled ['Album '] followed by its [id] in decimal, and
    its basename is that title without the space. *)
Theorem constructor_default_name (opts : AlbumArg) (index : nat) :
  arg_title opts = None \/ arg_title opts = Some "" ->
  title (fst (new_Album opts index))
  = ("Album " ++ string_of_nat (id (fst (new_Album opts index))))%string /\
  basename (fst (new_Album opts index))
  = ("Album" ++ string_of_nat (id (fst (new_Album opts index))))%string.
Proof.
  intros Ht.
  assert (E : title (fst (new_Album opts index))
              = ("Album "
                 ++ string_of_nat (id (fst (new_Album opts index))))%string).
  { unfold new_Album, arg_title in *. destruct opts as [s|o]; simpl in *.
    - destruct Ht as [[=]|[= ->]]. reflexivity.
    - destruct (opts_id o) as [[|i]|]; simpl;
        destruct Ht as [->| ->]; reflexivity. }
  split; [exact E|].
  rewrite new_Album_basename, E. unfold sanitise, string_of_nat.
  rewrite sfilter_append. fold (sanitise (NilEmpty.string_of_uint
    (Nat.to_uint (id (fst (new_Album opts index)))))).
  rewrite sanitise_string_of_uint. reflexivity.
Qed.

(** ** The empty summary *)






(** ** [titleize] and the titles of digits and hyphens *)















(** ** [finalize] on what [finalize] returned *)

Lemma count_type_flat_map {A} type (f : A -> list File.t) (l : list A) :
  count_type type (flat_map f l)
  = list_sum (map (fun x => count_type type (f x)) l).
Proof.
  unfold count_type. induction l as [|x r IH]; simpl; [reflexivity|].
  rewrite filter_app, length_app, IH. reflexivity.
Qed.

Lemma subtree_count_files type (n : Album) :
  subtree_count type n = count_type type (subtree_files n).
Proof.
  unfold subtree_count, subtree_files. rewrite count_type_flat_map.
  reflexivity.
Qed.

Lemma finalize_with_albums_length path_join url_resolve options parent a a' :
  finalize_with path_join url_resolve options parent a = Some a' ->
  List.length (albums a') = List.length (albums a).
Proof.
  intros E. rewrite finalize_with_unfold in E.
  apply bind_Some in E as (nested & En & E).
  apply mapM_Forall2, Forall2_length in En.
  destruct (complete_fields _ _ _ E)
    as (_ & _ & _ & _ & _ & _ & _ & _ & _ & _ & Pa & _).
  apply Permutation_length in Pa. simpl in Pa. lia.
Qed.

(** The statistics of the album that a call of [finalize] returns. *)
Lemma finalize_with_root_stats path_join url_resolve options parent a a' :
  finalize_with path_join url_resolve options parent a = Some a' ->
  counts_subtree a' /\ additive a' /\ covers_dates a'.
Proof.
  intros E.
  assert (Hin : In a' (nodes a')) by (rewrite nodes_unfold; left; reflexivity).
  pose proof (finalize_with_nodes path_join url_resolve options counts_subtree
                (complete_counts_subtree options) parent a a' E) as H1.
  pose proof (finalize_with_nodes path_join url_resolve options additive
                (complete_additive options) parent a a' E) as H2.
  pose proof (finalize_with_nodes path_join url_resolve options covers_dates
                (complete_covers_dates options) parent a a' E) as H3.
  rewrite Forall_forall in H1, H2, H3. auto.
Qed.

Lemma covers_dates_same (n1 n2 : Album) (st1 st2 : Stats.t) :
  stats n1 = Some st1 -> stats n2 = Some st2 ->
  covers_dates n1 -> covers_dates n2 ->
  (forall file, In file (subtree_files n1) -> In file (subtree_files n2)) ->
  (forall file, In file (subtree_files n2) -> In file (subtree_files n1)) ->
  Stats.fromDate st1 = Stats.fromDate st2 /\
  Stats.toDate st1 = Stats.toDate st2.
Proof.
  intros E1 E2 (s1 & E1' & F1 & T1 & C1) (s2 & E2' & F2 & T2 & C2) H12 H21.
  rewrite E1 in E1'. injection E1' as <-.
  rewrite E2 in E2'. injection E2' as <-.
  split.
  - destruct (Stats.fromDate st1) as [f1|] eqn:Ef1,
             (Stats.fromDate st2) as [f2|] eqn:Ef2; try reflexivity.
    + destruct (F1 f1 eq_refl) as (N1 & x1 & Hx1 & Dx1).
      destruct (F2 f2 eq_refl) as (N2 & x2 & Hx2 & Dx2).
      destruct (C2 x1 f1 (H12 _ Hx1) Dx1 N1) as (f & t & Ef & _ & Hle1).
      destruct (C1 x2 f2 (H21 _ Hx2) Dx2 N2) as (f' & t' & Ef' & _ & Hle2).
      assert (f = f2) by congruence. assert (f' = f1) by congruence.
      subst. f_equal. lia.
    + destruct (F1 f1 eq_refl) as (N1 & x1 & Hx1 & Dx1).
      destruct (C2 x1 f1 (H12 _ Hx1) Dx1 N1) as (f & t & Ef & _).
      congruence.
    + destruct (F2 f2 eq_refl) as (N2 & x2 & Hx2 & Dx2).
      destruct (C1 x2 f2 (H21 _ Hx2) Dx2 N2) as (f & t & Ef & _).
      congruence.
  - destruct (Stats.toDate st1) as [t1|] eqn:Et1,
             (Stats.toDate st2) as [t2|] eqn:Et2; try reflexivity.
    + destruct (T1 t1 eq_refl) as (N1 & x1 & Hx1 & Dx1).
      destruct (T2 t2 eq_refl) as (N2 & x2 & Hx2 & Dx2).
      destruct (C2 x1 t1 (H12 _ Hx1) Dx1 N1) as (f & t & _ & Et & Hle1).
      destruct (C1 x2 t2 (H21 _ Hx2) Dx2 N2) as (f' & t' & _ & Et' & Hle2).
      assert (t = t2) by congruence. assert (t' = t1) by congruence.
      subst. f_equal. lia.
    + destruct (T1 t1 eq_refl) as (N1 & x1 & Hx1 & Dx1).
      destruct (C2 x1 t1 (H12 _ Hx1) Dx1 N1) as (f & t & _ & Et & _).
      congruence.
    + destruct (T2 t2 eq_refl) as (N2 & x2 & Hx2 & Dx2).
      destruct (C1 x2 t2 (H21 _ Hx2) Dx2 N2) as (f & t & _ & Et & _).
      congruence.
Qed.

(** X21. [finalize] a second time: [finalize] on the tree that [finalize]
    returned, with the same options, gives the root the same statistics;
    but it is not a no-op: an album two levels down, whose basename
    already starts with the basename of the album that holds it, gets
    that basename and a hyphen in front once more. *)
Theorem finalize_again
        (path_join url_resolve : string -> string -> string)
        (options : option Options) (root once twice : Album) :
  finalize path_join url_resolve options None root = Some once ->
  finalize path_join url_resolve options None once = Some twice ->
  stats twice = stats once /\
  forall A B, In A (albums once) -> In B (albums A) ->
    (exists b, basename B = (basename A ++ "-" ++ b)%string) /\
    exists A' B',
      In A' (albums twice) /\ In B' (albums A') /\
      basename A' = basename A /\
      basename B' = (basename A ++ "-" ++ basename B)%string.
Proof.
  intros E1 E2. rewrite finalize_defaulted in E1, E2. split.
  - destruct (finalize_with_root_stats _ _ _ _ _ _ E1) as (K1 & A1 & D1).
    destruct (finalize_with_root_stats _ _ _ _ _ _ E2) as (K2 & A2 & D2).
    destruct (finalize_with_keeps _ _ _ _ _ _ E2) as [Pf _].
    destruct K1 as (st1 & S1 & Ka1 & Kp1 & Kv1).
    destruct K2 as (st2 & S2 & Ka2 & Kp2 & Kv2).
    destruct A1 as (st1' & S1' & _ & _ & _ & Kt1).
    destruct A2 as (st2' & S2' & _ & _ & _ & Kt2).
    rewrite S1 in S1'. injection S1' as <-.
    rewrite S2 in S2'. injection S2' as <-.
    destruct (covers_dates_same once twice st1 st2 S1 S2 D1 D2) as [Hf Ht].
    { intros file. apply Permutation_in, Pf. }
    { intros file. apply Permutation_in, Permutation_sym, Pf. }
    rewrite S1, S2. f_equal.
    rewrite !subtree_count_files in Kp1, Kp2, Kv1, Kv2.
    rewrite <- (count_type_Permutation "image" _ _ Pf) in Kp2.
    rewrite <- (count_type_Permutation "video" _ _ Pf) in Kv2.
    rewrite (finalize_with_albums_length _ _ _ _ _ _ E2) in Ka2.
    destruct st1, st2. simpl in *. congruence.
  - intros A B HA HB.
    pose proof (finalize_with_well_placed _ _ _ _ _ _ E1) as W.
    rewrite Forall_forall in W.
    assert (Hroot : In once (nodes once))
      by (rewrite nodes_unfold; left; reflexivity).
    destruct (W once Hroot) as [_ Wc].
    destruct (Wc A HA) as (DA & _).
    assert (HAn : In A (nodes once)).
    { rewrite nodes_unfold. right. apply in_flat_map. exists A.
      split; [exact HA|]. rewrite nodes_unfold. left. reflexivity. }
    destruct (W A HAn) as [_ WA].
    destruct (WA B HB) as (_ & _ & _ & _ & Hpre).
    split; [apply Hpre; lia|].
    destruct (finalize_with_child _ _ _ _ _ _ _ E2 HA) as (A' & HA' & EA').
    destruct (finalize_with_child _ _ _ _ _ _ _ EA' HB) as (B' & HB' & EB').
    destruct (finalize_with_under _ _ _ _ _ _ EA') as (DA' & _ & _ & _ & BA').
    destruct (finalize_with_under _ _ _ _ _ _ EB') as (_ & _ & _ & _ & BB').
    destruct (finalize_with_located _ _ _ _ _ _ EA') as (_ & _ & LB & LD).
    destruct (locate_root path_join url_resolve (defaulted options) once)
      as (Dr & _).
    rewrite Dr in BA', DA'.
    change (0 <? 0)%nat with false in BA'. cbv iota in BA'.
    rewrite <- LD, DA' in BB'.
    change (0 <? 0 + 1)%nat with true in BB'. cbv iota in BB'.
    rewrite <- LB, BA' in BB'.
    exists A', B'. auto.
Qed.

(** ** The words of [titleize] *)

Lemma toUpperCase_char_class (c : ascii) :
  Chars.is_space (Chars.toUpperCase_char c) = Chars.is_space c /\
  Chars.is_underscore (Chars.toUpperCase_char c) = Chars.is_underscore c /\
  Chars.is_lower (Chars.toUpperCase_char c) = false /\
  (Chars.is_word c = false -> Chars.toUpperCase_char c = c) /\
  (Chars.is_lower c = true -> Chars.is_word (Chars.toUpperCase_char c) = true).
Proof.
  destruct c as [[] [] [] [] [] [] [] []]; vm_compute;
    repeat split; intros; congruence.
Qed.

Lemma toLowerCase_char_underscore (c : ascii) :
  Chars.is_underscore (Chars.toLowerCase_char c) = Chars.is_underscore c.
Proof.
  destruct c as [[] [] [] [] [] [] [] []]; reflexivity.
Qed.

Lemma span_app (p : ascii -> bool) (s : list ascii) :
  forall a b, Titleize.span p s = (a, b) ->
    s = a ++ b /\ Forall (fun c => p c = true) a
    /\ (forall c r, b = c :: r -> p c = false).
Proof.
  induction s as [|x r IH]; simpl; intros a b E.
  - injection E as <- <-. repeat split; [constructor|discriminate].
  - destruct (p x) eqn:Ex.
    + destruct (Titleize.span p r) as [a' b'] eqn:Er.
      injection E as <- <-. destruct (IH _ _ eq_refl) as (E1 & E2 & E3).
      repeat split; [simpl; congruence|constructor; assumption|exact E3].
    + injection E as <- <-. repeat split; [constructor|].
      intros c r' [= <- <-]. exact Ex.
Qed.

Lemma span_of_app (p : ascii -> bool) (a : list ascii) (c : ascii) r :
  Forall (fun x => p x = true) a -> p c = false ->
  Titleize.span p (a ++ c :: r) = (a, c :: r).
Proof.
  induction 1 as [|x a Hx _ IH]; intros Hc; simpl.
  - rewrite Hc. reflexivity.
  - rewrite Hx, (IH Hc). reflexivity.
Qed.

(** What [capitalize] returns: the word itself, or the word with its
    first letter, a lower-case one after characters that are not word
    characters, in upper case. *)
Lemma capitalize_cases (w : list ascii) :
  (Titleize.capitalize w = w /\
   forall nonword c rest,
     Titleize.span (fun c => negb (Chars.is_word c)) w = (nonword, c :: rest) ->
     Chars.is_lower c = false) \/
  exists nonword c rest,
    w = nonword ++ c :: rest /\
    Forall (fun x => negb (Chars.is_word x) = true) nonword /\
    Chars.is_lower c = true /\
    Titleize.capitalize w = nonword ++ Chars.toUpperCase_char c :: rest.
Proof.
  unfold Titleize.capitalize.
  destruct (Titleize.span (fun c => negb (Chars.is_word c)) w)
    as [nonword rest] eqn:E.
  destruct (span_app _ _ _ _ E) as (Ew & Hn & _).
  destruct rest as [|c rest'].
  - left. split; [reflexivity|]. intros ? ? ? [=].
  - destruct (Chars.is_lower c) eqn:Ec.
    + right. exists nonword, c, rest'. repeat split; try assumption.
      f_equal. clear -Hn. induction Hn as [|x a Hx _ IH]; simpl; [reflexivity|].
      rewrite IH. f_equal. apply toUpperCase_char_class.
      destruct (Chars.is_word x); [discriminate|reflexivity].
    + left. split; [reflexivity|]. intros ? ? ? [= <- <- <-]. exact Ec.
Qed.

Lemma capitalize_idempotent (w : list ascii) :
  Titleize.capitalize (Titleize.capitalize w) = Titleize.capitalize w.
Proof.
  destruct (capitalize_cases w) as [[E _]|(nonword & c & rest & Ew & Hn & Hc & E)].
  - rewrite E. exact E.
  - rewrite E. unfold Titleize.capitalize at 1.
    rewrite (span_of_app _ nonword _ rest Hn).
    + destruct (toUpperCase_char_class c) as (_ & _ & Hl & _).
      rewrite Hl. reflexivity.
    + destruct (toUpperCase_char_class c) as (_ & _ & _ & _ & Hw).
      rewrite (Hw Hc). reflexivity.
Qed.

Lemma capitalize_Forall (P : ascii -> Prop) (w : list ascii) :
  (forall c, P c -> P (Chars.toUpperCase_char c)) ->
  Forall P w -> Forall P (Titleize.capitalize w).
Proof.
  intros HP Hw.
  destruct (capitalize_cases w) as [[E _]|(nonword & c & rest & Ew & _ & _ & E)].
  - rewrite E. exact Hw.
  - rewrite E. rewrite Ew in Hw. apply Forall_app in Hw as [Ha Hb].
    inversion Hb; subst. apply Forall_app. split; [exact Ha|].
    constructor; [apply HP|]; assumption.
Qed.

Lemma capitalize_nonempty (w : list ascii) :
  w <> [] -> Titleize.capitalize w <> [].
Proof.
  intros Hw.
  destruct (capitalize_cases w) as [[E _]|(nonword & c & rest & _ & _ & _ & E)];
    rewrite E; [exact Hw|].
  destruct nonword; discriminate.
Qed.

Lemma drop_spaces_suffix (s : list ascii) :
  exists pre, s = pre ++ Titleize.drop_spaces s.
Proof.
  induction s as [|c r [pre IH]]; simpl.
  - exists []. reflexivity.
  - destruct (Chars.is_space c).
    + exists (c :: pre). simpl. congruence.
    + exists []. reflexivity.
Qed.

Lemma drop_spaces_head (s : list ascii) :
  forall c r, Titleize.drop_spaces s = c :: r -> Chars.is_space c = false.
Proof.
  induction s as [|x s IH]; simpl; intros c r E; [discriminate|].
  destruct (Chars.is_space x) eqn:Ex; [eauto|].
  injection E as <- <-. exact Ex.
Qed.

(** What [trim] returns has no space at either end. *)
Lemma trim_ends (s : list ascii) :
  Titleize.trim s = [] \/
  (exists c r, Titleize.trim s = c :: r /\ Chars.is_space c = false) /\
  Chars.is_space (last (Titleize.trim s) "a"%char) = false.
Proof.
  unfold Titleize.trim.
  destruct (drop_spaces_suffix (rev (Titleize.drop_spaces s))) as [pre Epre].
  destruct (Titleize.drop_spaces (rev (Titleize.drop_spaces s)))
    as [|z zs] eqn:Ez; [left; reflexivity|].
  right. split.
  - assert (Ey : Titleize.drop_spaces s = rev (z :: zs) ++ rev pre).
    { rewrite <- rev_app_distr, <- Epre, rev_involutive. reflexivity. }
    destruct (rev (z :: zs)) as [|c r] eqn:Er.
    + apply (f_equal (@List.length ascii)) in Er.
      rewrite length_rev in Er. discriminate.
    + exists c, r. split; [reflexivity|].
      simpl in Ey. exact (drop_spaces_head _ _ _ Ey).
  - simpl. rewrite last_last. exact (drop_spaces_head _ _ _ Ez).
Qed.

Lemma trim_Forall (P : ascii -> Prop) (s : list ascii) :
  Forall P s -> Forall P (Titleize.trim s).
Proof.
  intros Hs. unfold Titleize.trim.
  assert (Hd : forall l, Forall P l -> Forall P (Titleize.drop_spaces l)).
  { intros l Hl. destruct (drop_spaces_suffix l) as [pre E].
    rewrite E in Hl. apply Forall_app in Hl. apply Hl. }
  apply Forall_rev, Hd, Forall_rev, Hd, Hs.
Qed.

Lemma split_spaces_Forall (P : ascii -> Prop) (s : list ascii) :
  Forall P s ->
  forall cur in_sep,
    Forall P cur -> Forall (fun c => Chars.is_space c = false) cur ->
    Forall (fun w => Forall P w /\ Forall (fun c => Chars.is_space c = false) w)
           (Titleize.split_spaces cur in_sep s).
Proof.
  induction 1 as [|c r Hc _ IH]; intros cur in_sep Hcur Hn; simpl.
  - constructor; [|constructor]. split; apply Forall_rev; assumption.
  - destruct (Chars.is_space c) eqn:Ec.
    + destruct in_sep; [apply IH; assumption|].
      constructor; [split; apply Forall_rev; assumption|].
      apply IH; constructor.
    + apply IH; constructor; assumption.
Qed.

Lemma split_spaces_nonempty (s : list ascii) :
  forall cur in_sep,
    Chars.is_space (last s "a"%char) = false ->
    (s = [] -> cur <> []) ->
    (in_sep = false -> cur = [] ->
     exists c r, s = c :: r /\ Chars.is_space c = false) ->
    Forall (fun w => w <> []) (Titleize.split_spaces cur in_sep s).
Proof.
  induction s as [|c r IH]; intros cur in_sep Hlast Hnil Hhead; simpl.
  - constructor; [|constructor]. intros E.
    apply (f_equal (@rev ascii)) in E. rewrite rev_involutive in E.
    exact (Hnil eq_refl E).
  - destruct (Chars.is_space c) eqn:Ec.
    + assert (Hr : r <> []) by (intros ->; simpl in Hlast; congruence).
      assert (Hlast' : Chars.is_space (last r "a"%char) = false)
        by (destruct r; [contradiction|exact Hlast]).
      destruct in_sep.
      * apply IH; [exact Hlast'|contradiction|discriminate].
      * constructor.
        -- intros E. apply (f_equal (@rev ascii)) in E.
           rewrite rev_involutive in E. simpl in E.
           destruct (Hhead eq_refl E) as (c' & r' & [= <- <-] & Hc').
           congruence.
        -- apply IH; [exact Hlast'|contradiction|discriminate].
    + apply IH.
      * destruct r; [reflexivity|exact Hlast].
      * discriminate.
      * discriminate.
Qed.

Lemma replace_underscores (fuel : nat) :
  forall s, List.length s <= fuel ->
    Forall (fun c => Chars.is_underscore c = false)
           (Titleize.replace_all_fuel Titleize.match_underscore fuel s).
Proof.
  induction fuel as [|fuel IH]; intros s Hs.
  - destruct s; [constructor|simpl in Hs; lia].
  - destruct s as [|c r]; [constructor|].
    cbn [Titleize.replace_all_fuel Titleize.match_underscore].
    simpl in Hs.
    destruct (Chars.is_underscore c) eqn:Ec; simpl.
    + constructor; [reflexivity|]. apply IH. lia.
    + constructor; [exact Ec|]. apply IH. lia.
Qed.

(** X22. The words of [titleize]: what [titleize] returns is words put
    together with one space between them.  No word has a space, a tab, a
    line break or an underscore, every word is capitalized (capitalizing
    it again changes nothing), and no word is empty, unless the result
    is the empty string. *)
Theorem titleize_words (str : string) :
  exists ws : list (list ascii),
    titleize str = of_chars (Titleize.join_chars ws) /\
    (ws = [[]] \/ Forall (fun w => w <> []) ws) /\
    Forall (fun w =>
              Titleize.capitalize w = w /\
              Forall (fun c => Chars.is_space c = false
                               /\ Chars.is_underscore c = false) w) ws.
Proof.
  unfold titleize, Titleize.titleize_chars.
  set (s2 := Titleize.replace_all Titleize.match_camel _).
  set (s3 := Titleize.replace_all Titleize.match_underscore s2).
  set (s5 := Titleize.capitalize (map Chars.toLowerCase_char s3)).
  set (t := Titleize.trim s5).
  exists (map Titleize.capitalize (Titleize.split_spaces [] false t)).
  split; [reflexivity|].
  assert (H3 : Forall (fun c => Chars.is_underscore c = false) s3)
    by (apply replace_underscores; lia).
  assert (Ht : Forall (fun c => Chars.is_underscore c = false) t).
  { apply trim_Forall, capitalize_Forall.
    - intros c Hc. destruct (toUpperCase_char_class c) as (_ & -> & _).
      exact Hc.
    - apply Forall_map. eapply Forall_impl; [|exact H3].
      intros c Hc. rewrite toLowerCase_char_underscore. exact Hc. }
  split.
  - pose proof (trim_ends s5) as Hte.
    change (Titleize.trim s5) with t in Hte.
    destruct Hte as [E|[(c & r & E & Hc) Hlast]].
    + left. rewrite E. reflexivity.
    + right. apply Forall_map.
      eapply Forall_impl; [intros w; apply capitalize_nonempty|].
      apply split_spaces_nonempty.
      * exact Hlast.
      * rewrite E. discriminate.
      * intros _ _. eauto.
  - apply Forall_map.
    eapply Forall_impl;
      [|exact (split_spaces_Forall _ t Ht [] false
                 (Forall_nil _) (Forall_nil _))].
    intros w [Hu Hs]. split; [apply capitalize_idempotent|].
    apply capitalize_Forall.
    + intros c [H1 H2].
      destruct (toUpperCase_char_class c) as (-> & -> & _). auto.
    + apply Forall_forall. intros c Hc. rewrite Forall_forall in Hu, Hs. auto.
Qed.

(** ** The further properties on the sample gallery *)

Example gallery_twice :
  map basename (nodes Sample.finalized)
  = ["Home"; "2024"; "Vacation2023"; "Vacation2023-beach_day"] /\
  map basename (nodes Gallery.twice)
  = ["Home"; "2024"; "Vacation2023"; "Vacation2023-Vacation2023-beach_day"] /\
  map title (nodes Gallery.sized)
  = ["Home"; "Vacation2023"; "Beach Day"; "2024"].
Proof. repeat split; reflexivity. Qed.

Lemma depth_and_home_witness :
  finalize Sample.path_join Sample.url_resolve (Some Sample.options) None
           Sample.root = Some Sample.finalized /\
  depth Sample.finalized = 0 /\
  forall n, In n (nodes Sample.finalized) ->
    home n = (depth n =? 0)%nat /\
    forall c, In c (albums n) -> depth c = depth n + 1 /\ home c = false.
Proof.
  split; [vm_compute; reflexivity|].
  apply (depth_and_home Sample.path_join Sample.url_resolve
           (Some Sample.options) Sample.root Sample.finalized).
  vm_compute. reflexivity.
Defined.

Lemma nested_album_places_witness :
  finalize Sample.path_join Sample.url_resolve (Some Sample.options) None
           Sample.root = Some Sample.finalized /\
  forall n c, In n (nodes Sample.finalized) -> In c (albums n) ->
    path c = Some (Sample.path_join (output_folder (Some Sample.options))
                                    (basename c ++ ".html")%string) /\
    url c = Some (Sample.url_resolve
                    (output_folder (Some Sample.options) ++ "/")%string
                    (basename c ++ ".html")%string) /\
    (0 < depth n -> exists b, basename c = (basename n ++ "-" ++ b)%string).
Proof.
  split; [vm_compute; reflexivity|].
  apply (nested_album_places Sample.path_join Sample.url_resolve
           (Some Sample.options) None Sample.root Sample.finalized).
  vm_compute. reflexivity.
Defined.

Lemma stats_count_subtree_witness :
  finalize Sample.path_join Sample.url_resolve (Some Sample.options) None
           Sample.root = Some Sample.finalized /\
  forall n, In n (nodes Sample.finalized) -> counts_subtree n.
Proof.
  split; [vm_compute; reflexivity|].
  apply (stats_count_subtree Sample.path_join Sample.url_resolve
           (Some Sample.options) None Sample.root Sample.finalized).
  vm_compute. reflexivity.
Defined.

Lemma date_range_covers_files_witness :
  finalize Sample.path_join Sample.url_resolve (Some Sample.options) None
           Sample.root = Some Sample.finalized /\
  forall n, In n (nodes Sample.finalized) -> covers_dates n.
Proof.
  split; [vm_compute; reflexivity|].
  apply (date_range_covers_files Sample.path_join Sample.url_resolve
           (Some Sample.options) None Sample.root Sample.finalized).
  vm_compute. reflexivity.
Defined.

Lemma finalize_keeps_content_witness :
  finalize Sample.path_join Sample.url_resolve (Some Sample.options) None
           Sample.root = Some Sample.finalized /\
  Permutation (subtree_files Sample.root) (subtree_files Sample.finalized) /\
  Permutation (map id (nodes Sample.root)) (map id (nodes Sample.finalized)) /\
  List.length (nodes Sample.finalized) = List.length (nodes Sample.root).
Proof.
  split; [vm_compute; reflexivity|].
  apply (finalize_keeps_content Sample.path_join Sample.url_resolve
           (Some Sample.options) None Sample.root Sample.finalized).
  vm_compute. reflexivity.
Defined.

Lemma files_sorted_by_filename_witness :
  sortMediaBy (defaulted (Some Gallery.by_name_desc)) = Some "filename" /\
  finalize Sample.path_join Sample.url_resolve (Some Gallery.by_name_desc) None
           Sample.root = Some Gallery.named_desc /\
  forall n, In n (nodes Gallery.named_desc) ->
    files_by_filename (defaulted (Some Gallery.by_name_desc)) n.
Proof.
  split; [reflexivity|]. split; [vm_compute; reflexivity|].
  apply (files_sorted_by_filename Sample.path_join Sample.url_resolve
           (Some Gallery.by_name_desc) None Sample.root Gallery.named_desc).
  - reflexivity.
  - vm_compute. reflexivity.
Defined.

Lemma files_sorted_by_date_witness :
  sortMediaBy (defaulted (Some Gallery.by_date)) = Some "date" /\
  finalize Sample.path_join Sample.url_resolve (Some Gallery.by_date) None
           Sample.root = Some Gallery.dated /\
  forall n, In n (nodes Gallery.dated) ->
    files_by_date (defaulted (Some Gallery.by_date)) n.
Proof.
  split; [reflexivity|]. split; [vm_compute; reflexivity|].
  apply (files_sorted_by_date Sample.path_join Sample.url_resolve
           (Some Gallery.by_date) None Sample.root Gallery.dated).
  - reflexivity.
  - vm_compute. reflexivity.
Defined.

Lemma albums_sorted_by_title_witness :
  sortAlbumsBy (defaulted (Some Gallery.by_name_desc)) = Some "title" /\
  sortAlmbumsNumbersFirst (defaulted (Some Gallery.by_name_desc)) = false /\
  finalize Sample.path_join Sample.url_resolve (Some Gallery.by_name_desc) None
           Sample.root = Some Gallery.named_desc /\
  forall n, In n (nodes Gallery.named_desc) ->
    albums_by_title (defaulted (Some Gallery.by_name_desc)) n.
Proof.
  split; [reflexivity|]. split; [reflexivity|].
  split; [vm_compute; reflexivity|].
  apply (albums_sorted_by_title Sample.path_join Sample.url_resolve
           (Some Gallery.by_name_desc) None Sample.root Gallery.named_desc).
  - reflexivity.
  - reflexivity.
  - vm_compute. reflexivity.
Defined.

Lemma albums_sorted_by_date_witness :
  sortAlmbumsNumbersFirst (defaulted (Some Gallery.by_date)) = false /\
  finalize Sample.path_join Sample.url_resolve (Some Gallery.by_date) None
           Sample.root = Some Gallery.dated /\
  sortAlbumsBy (defaulted (Some Gallery.by_date)) = Some "start-date" /\
  forall n, In n (nodes Gallery.dated) ->
    Sorted (fun a b => date_le (start_date a) (start_date b)) (albums n).
Proof.
  split; [reflexivity|]. split; [vm_compute; reflexivity|].
  split; [reflexivity|].
  apply (proj1 (albums_sorted_by_date Sample.path_join Sample.url_resolve
                  (Some Gallery.by_date) None Sample.root Gallery.dated
                  eq_refl ltac:(vm_compute; reflexivity))).
  reflexivity.
Defined.

Lemma sort_keeps_ties_witness :
  finalize Sample.path_join Sample.url_resolve (Some Gallery.by_date) None
           Sample.root = Some Gallery.dated /\
  forall P : File.t -> bool,
    (forall f g, P f = true -> P g = true -> File.date f = File.date g) ->
    filter P (files Gallery.dated) = filter P (files Sample.root).
Proof.
  split; [vm_compute; reflexivity|].
  apply (proj2 (sort_keeps_ties Sample.path_join Sample.url_resolve
                  (Some Gallery.by_date) None Sample.root Gallery.dated
                  ltac:(vm_compute; reflexivity))).
  reflexivity.
Defined.

Lemma unknown_sort_key_keeps_order_witness :
  finalize Sample.path_join Sample.url_resolve (Some Gallery.by_size) None
           Sample.vacation = Some (Gallery.finalized_with Gallery.by_size
                                     Sample.vacation) /\
  files (Gallery.finalized_with Gallery.by_size Sample.vacation)
  = files Sample.vacation.
Proof.
  split; [vm_compute; reflexivity|].
  apply (proj1 (unknown_sort_key_keeps_order Sample.path_join Sample.url_resolve
                  (Some Gallery.by_size) None Sample.vacation
                  (Gallery.finalized_with Gallery.by_size Sample.vacation)
                  ltac:(vm_compute; reflexivity))).
  - intros k [= <-]. split; discriminate.
  - intros k [= <-]. vm_compute. intuition discriminate.
Defined.


Lemma previews_come_from_subtree_witness :
  finalize Sample.path_join Sample.url_resolve (Some Sample.options) None
           Sample.root = Some Sample.finalized /\
  forall n, In n (nodes Sample.finalized) -> previews_from_subtree n.
Proof.
  split; [vm_compute; reflexivity|].
  apply (previews_come_from_subtree Sample.path_join Sample.url_resolve
           (Some Sample.options) None Sample.root Sample.finalized).
  vm_compute. reflexivity.
Defined.

Lemma previews_filled_from_subtree_witness :
  finalize Sample.path_join Sample.url_resolve (Some Sample.options) None
           Sample.root = Some Sample.finalized /\
  forall n, In n (nodes Sample.finalized) -> previews_filled n.
Proof.
  split; [vm_compute; reflexivity|].
  apply (previews_filled_from_subtree Sample.path_join Sample.url_resolve
           (Some Sample.options) None Sample.root Sample.finalized).
  vm_compute. reflexivity.
Defined.

Lemma previews_own_files_first_witness :
  finalize Sample.path_join Sample.url_resolve (Some Sample.options) None
           Sample.root = Some Sample.finalized /\
  forall n, In n (nodes Sample.finalized) -> own_files_first n.
Proof.
  split; [vm_compute; reflexivity|].
  apply (previews_own_files_first Sample.path_join Sample.url_resolve
           (Some Sample.options) None Sample.root Sample.finalized).
  vm_compute. reflexivity.
Defined.

Lemma constructor_default_name_witness :
  arg_title (OfOpts (mkAlbumOpts None (Some "") None None)) = Some "" /\
  title (fst (new_Album (OfOpts (mkAlbumOpts None (Some "") None None)) 41))
  = "Album 42" /\
  basename (fst (new_Album (OfOpts (mkAlbumOpts None (Some "") None None)) 41))
  = "Album42".
Proof.
  split; [reflexivity|].
  apply (constructor_default_name
           (OfOpts (mkAlbumOpts None (Some "") None None)) 41).
  right. reflexivity.
Defined.



Lemma finalize_again_witness :
  finalize Sample.path_join Sample.url_resolve (Some Sample.options) None
           Sample.root = Some Sample.finalized /\
  finalize Sample.path_join Sample.url_resolve (Some Sample.options) None
           Sample.finalized = Some Gallery.twice /\
  stats Gallery.twice = stats Sample.finalized.
Proof.
  split; [vm_compute; reflexivity|]. split; [vm_compute; reflexivity|].
  apply (finalize_again Sample.path_join Sample.url_resolve
           (Some Sample.options) Sample.root Sample.finalized Gallery.twice).
  - vm_compute. reflexivity.
  - vm_compute. reflexivity.
Defined.
